(* Shallow embedding of parts of the slang SystemVerilog front-end:
   - Type.h                    : canonical types
   - MiscExpressions.cpp       : hierarchical values, call binding (fromArgs),
                                 constant checks and constant evaluation of calls,
                                 min/typ/max expressions
   - MemberSymbols.cpp         : explicit imports, subroutine port lists *)

From Stdlib Require Import List String Bool ZArith Arith Lia.
Import ListNotations.
Local Open Scope list_scope.
#[local] Set Warnings "-register-all".

(* ------------------------------------------------------------------------- *)
(** * Symbol kinds and types (Type.h) *)

Inductive SymbolKind :=
  | Root | CompilationUnit | Package | ModuleInstance
  | GenerateBlock | ProceduralBlock | StatementBlock | Subroutine
  | FormalArgument | Net | EnumValue
  | ClassType | ScalarType | PredefinedIntegerType | FloatingType
  | StringType | VoidType | ErrorType | TypeAlias.

Definition SymbolKind_eqb (a b : SymbolKind) : bool :=
  match a, b with
  | Root, Root | CompilationUnit, CompilationUnit | Package, Package
  | ModuleInstance, ModuleInstance | GenerateBlock, GenerateBlock
  | ProceduralBlock, ProceduralBlock | StatementBlock, StatementBlock
  | Subroutine, Subroutine | FormalArgument, FormalArgument
  | Net, Net
  | EnumValue, EnumValue | ClassType, ClassType | ScalarType, ScalarType
  | PredefinedIntegerType, PredefinedIntegerType
  | FloatingType, FloatingType | StringType, StringType
  | VoidType, VoidType | ErrorType, ErrorType | TypeAlias, TypeAlias => true
  | _, _ => false
  end.

(** A type is either a non-alias type, built by the protected [Type]
    constructor, or a type alias naming its target. *)
Inductive Ty :=
  | mkType (kind : SymbolKind) (name : string)
  | mkTypeAlias (name : string) (target : Ty).

(** The [canonical] member as the constructors leave it.  [Type::Type]
    initialises it with [this]; an alias leaves it unset until
    [resolveCanonical] runs. *)
Definition canonicalField (t : Ty) : option Ty :=
  match t with
  | mkType _ _ => Some t
  | mkTypeAlias _ _ => None
  end.

(** [Type::getCanonicalType]: return [canonical] when set, otherwise run
    [resolveCanonical].
    Modelled from the spec: [Type::resolveCanonical] is not in the sources;
    per the spec, a type alias forwards to its target's canonical type. *)
Fixpoint getCanonicalType (t : Ty) : Ty :=
  match canonicalField t with
  | Some c => c
  | None =>
      match t with
      | mkTypeAlias _ target => getCanonicalType target
      | mkType _ _ => t
      end
  end.

Definition tyKind (t : Ty) : SymbolKind :=
  match t with
  | mkType k _ => k
  | mkTypeAlias _ _ => TypeAlias
  end.

Definition isVoid (t : Ty) : bool :=
  SymbolKind_eqb (tyKind (getCanonicalType t)) VoidType.

Definition isError (t : Ty) : bool :=
  SymbolKind_eqb (tyKind (getCanonicalType t)) ErrorType.

Definition voidType : Ty := mkType VoidType "void"%string.
Definition errorType : Ty := mkType ErrorType "<error>"%string.
Definition intType : Ty := mkType PredefinedIntegerType "int"%string.
Definition logicType : Ty := mkType ScalarType "logic"%string.

(* ------------------------------------------------------------------------- *)
(** * Diagnostics *)

Inductive DiagCode :=
  | ConstEvalTaskNotConstant | ConstEvalDPINotConstant
  | ConstEvalMethodNotConstant | ConstEvalSubroutineNotConstant
  | ConstEvalVoidNotConstant | ConstEvalFunctionArgDirection
  | ConstEvalFunctionInsideGenerate | ConstEvalDisableTarget
  | ConstEvalHierarchicalNameInCE | ConstEvalExceededMaxCallDepth
  | DuplicateArgAssignment | MixingOrderedAndNamedArgs | ArgCannotBeEmpty
  | TooFewArguments | UnconnectedArg | TooManyArguments | ArgDoesNotExist.

Inductive DiagArg := DStr (s : string) | DNat (n : nat).

(** A diagnostic: its code, the source range it points at, its arguments,
    and the constant-evaluation call stack reported with it (the names of
    the subroutines on the frame stack when it was issued, innermost first). *)
Record Diag := mkDiag {
  dcode : DiagCode;
  drange : nat;
  dargs : list DiagArg;
  dstack : list string
}.

(* ------------------------------------------------------------------------- *)
(** * Subroutines *)

Inductive SubroutineKind := SK_Function | SK_Task.

Inductive ArgumentDirection := ArgIn | ArgOut | ArgInOut | ArgRef.

Definition ArgumentDirection_eqb (a b : ArgumentDirection) : bool :=
  match a, b with
  | ArgIn, ArgIn | ArgOut, ArgOut | ArgInOut, ArgInOut | ArgRef, ArgRef => true
  | _, _ => false
  end.

(** [MethodFlags] is a bitmask.
    Modelled from the spec: the bitmask class and the flag values are not in
    the sources; the spec names virtual and pure methods each as not
    constant, so [has] tests whether any of the given bits is set. *)
Definition MethodFlags := Z.
Definition MF_None : MethodFlags := 0%Z.
Definition MF_Virtual : MethodFlags := 1%Z.
Definition MF_Pure : MethodFlags := 2%Z.
Definition MF_Static : MethodFlags := 4%Z.
Definition MF_Constructor : MethodFlags := 8%Z.
Definition MF_InterfaceImport : MethodFlags := 16%Z.
Definition MF_DPIImport : MethodFlags := 32%Z.
Definition MF_NotConst : MethodFlags := 64%Z.

Definition flags_has (flags mask : MethodFlags) : bool :=
  negb (Z.land flags mask =? 0)%Z.


(** The reasons the claim lists for a call not being constant: a task, a
    DPI import, a virtual, pure or constructor method, a void return type, a
    formal that is not [input], a parent generate block. *)
Definition claimedNonConstant (sub_kind : SubroutineKind) (fl : MethodFlags) (ret : Ty)
    (dirs : list ArgumentDirection) (parent : SymbolKind) : bool :=
  match sub_kind with SK_Task => true | SK_Function => false end
  || flags_has fl MF_DPIImport
  || flags_has fl MF_Virtual || flags_has fl MF_Pure || flags_has fl MF_Constructor
  || isVoid ret
  || existsb (fun d => negb (ArgumentDirection_eqb d ArgIn)) dirs
  || SymbolKind_eqb parent GenerateBlock.

(* ------------------------------------------------------------------------- *)
(** * Bound expressions *)

Inductive MinTypMax := MTM_Min | MTM_Typ | MTM_Max.

(** Bound expressions.  A call refers to a user-defined subroutine by its
    index in the compilation's subroutine table; [callId] is the identity
    of the call-expression node (its address in the arena). *)
Inductive Expr :=
  | InvalidExpression (child : option Expr)
  | IntegerLiteral (ty : Ty) (value : Z)
  | HierarchicalValueExpression (symbolName : string) (ty : Ty) (sourceRange : nat)
  | CallExpression (callId : nat) (subroutine : nat) (thisClass : option Expr)
      (arguments : list Expr) (ty : Ty) (sourceRange : nat)
  | MinTypMaxExpression (ty : Ty) (min typ max : Expr) (selected : MinTypMax).

Definition exprType (e : Expr) : Ty :=
  match e with
  | InvalidExpression _ => errorType
  | IntegerLiteral t _ => t
  | HierarchicalValueExpression _ t _ => t
  | CallExpression _ _ _ _ t _ => t
  | MinTypMaxExpression t _ _ _ _ => t
  end.

(** [Expression::bad]: the expression is an [InvalidExpression]. *)
Definition bad (e : Expr) : bool :=
  match e with InvalidExpression _ => true | _ => false end.

(** [badExpr(compilation, expr)]: wrap [expr] in an invalid expression. *)
Definition badExpr (child : option Expr) : Expr := InvalidExpression child.

(** [MinTypMaxExpression::selected]. *)
Definition selectedOf (min typ max : Expr) (sel : MinTypMax) : Expr :=
  match sel with MTM_Min => min | MTM_Typ => typ | MTM_Max => max end.

(** A formal argument; [initializer] is its bound default value. *)
Record FormalArgumentSymbol := mkFormal {
  formalName : string;
  formalType : Ty;
  direction : ArgumentDirection;
  isConstant : bool;
  initializer : option Expr
}.

(** A user-defined subroutine.  [parentKind] is the kind of its parent scope's
    symbol; [body] lists the expressions of its body statements, in order,
    as seen by constant verification. *)
Record SubroutineSymbol := mkSubroutine {
  sub_name : string;
  subroutineKind : SubroutineKind;
  flags : MethodFlags;
  returnType : Ty;
  sub_arguments : list FormalArgumentSymbol;
  parentKind : SymbolKind;
  body : list Expr
}.

(* ------------------------------------------------------------------------- *)
(** * Constant values and the evaluation context *)

Inductive ConstantValue := CVBad | CVInt (v : Z).

Inductive LocalKey := LFormal (name : string) | LReturnVal.

Definition LocalKey_eqb (a b : LocalKey) : bool :=
  match a, b with
  | LFormal x, LFormal y => String.eqb x y
  | LReturnVal, LReturnVal => true
  | _, _ => false
  end.

Record Frame := mkFrame {
  frameSub : string;
  frameCallLoc : nat;
  locals : list (LocalKey * ConstantValue)
}.

Record CompilationOptions := mkOptions {
  minTypMax : MinTypMax;
  allowHierarchicalConst : bool;
  maxRecursionDepth : nat
}.

Record EvalContext := mkCtx {
  options : CompilationOptions;
  scriptEval : bool;
  frames : list Frame;
  diags : list Diag;
  disableRange : nat
}.

Definition setFrames (ctx : EvalContext) (fs : list Frame) : EvalContext :=
  mkCtx (options ctx) (scriptEval ctx) fs (diags ctx) (disableRange ctx).

(** [EvalContext::addDiag]: the diagnostic carries the current call stack. *)
Definition addDiag (ctx : EvalContext) (code : DiagCode) (range : nat)
    (args : list DiagArg) : EvalContext :=
  mkCtx (options ctx) (scriptEval ctx) (frames ctx)
    (diags ctx ++ [mkDiag code range args (map frameSub (frames ctx))])
    (disableRange ctx).

(** [EvalContext::pushFrame].
    Modelled from the spec: the evaluation context is not in the sources;
    per the spec it keeps a stack of frames and refuses to go deeper than
    the configured recursion limit, reporting it. *)
Definition pushFrame (ctx : EvalContext) (sub : SubroutineSymbol) (callLoc : nat)
    : bool * EvalContext :=
  if Nat.leb (maxRecursionDepth (options ctx)) (List.length (frames ctx)) then
    (false, addDiag ctx ConstEvalExceededMaxCallDepth callLoc [])
  else
    (true, setFrames ctx (mkFrame (sub_name sub) callLoc [] :: frames ctx)).

(** [EvalContext::popFrame]. Modelled from the spec, like [pushFrame]. *)
Definition popFrame (ctx : EvalContext) : EvalContext :=
  setFrames ctx (tl (frames ctx)).

(** [EvalContext::createLocal]: bind a local in the top frame. *)
Definition createLocal (ctx : EvalContext) (k : LocalKey) (v : ConstantValue)
    : EvalContext :=
  match frames ctx with
  | [] => ctx
  | f :: fs => setFrames ctx (mkFrame (frameSub f) (frameCallLoc f) ((k, v) :: locals f) :: fs)
  end.

(** [EvalContext::findLocal]: look a local up in the top frame. *)
Definition findLocal (ctx : EvalContext) (k : LocalKey) : option ConstantValue :=
  match frames ctx with
  | [] => None
  | f :: _ =>
      match find (fun kv => LocalKey_eqb (fst kv) k) (locals f) with
      | Some (_, v) => Some v
      | None => None
      end
  end.

(** The value a local starts with when created without one. *)
Definition defaultValue (t : Ty) : ConstantValue := CVInt 0.

(* ------------------------------------------------------------------------- *)
(** * [CallExpression::checkConstant] *)

Definition checkConstant (ctx : EvalContext) (subroutine : SubroutineSymbol)
    (range : nat) : bool * EvalContext :=
  if scriptEval ctx then (true, ctx) else
  match subroutineKind subroutine with
  | SK_Task => (false, addDiag ctx ConstEvalTaskNotConstant range [])
  | SK_Function =>
  if flags_has (flags subroutine) MF_DPIImport then
    (false, addDiag ctx ConstEvalDPINotConstant range [])
  else if flags_has (flags subroutine)
            (Z.lor (Z.lor MF_Virtual MF_Pure) MF_Constructor) then
    (false, addDiag ctx ConstEvalMethodNotConstant range [])
  else if flags_has (flags subroutine) MF_NotConst then
    (false, addDiag ctx ConstEvalSubroutineNotConstant range [DStr (sub_name subroutine)])
  else if isVoid (returnType subroutine) then
    (false, addDiag ctx ConstEvalVoidNotConstant range [])
  else if existsb (fun arg => negb (ArgumentDirection_eqb (direction arg) ArgIn))
            (sub_arguments subroutine) then
    (false, addDiag ctx ConstEvalFunctionArgDirection range [])
  else if SymbolKind_eqb (parentKind subroutine) GenerateBlock then
    (false, addDiag ctx ConstEvalFunctionInsideGenerate range [])
  else (true, ctx)
  end.

(* ------------------------------------------------------------------------- *)
(** * Constant evaluation ([Expression::eval]) *)

(** [Statement::EvalResult]. *)
Inductive EvalResult := Success | Return | Fail | Disable | Break | Continue.

Section Evaluation.

(** The compilation's table of user-defined subroutines. *)
Variable subroutines : list SubroutineSymbol.

(** Evaluation of a subroutine's body statements in the current context
    (the statement evaluator is not part of this development). *)
Variable evalBody : SubroutineSymbol -> EvalContext -> EvalResult * EvalContext.

(** Lines 711-720 of [CallExpression::evalImpl]: push a frame for the callee,
    bind the argument values to the formals, create the return-value local. *)
Definition setupCallFrame (ctx : EvalContext) (symbol : SubroutineSymbol)
    (args : list ConstantValue) (range : nat) : bool * EvalContext :=
  let (pushed, ctx1) := pushFrame ctx symbol range in
  if negb pushed then (false, ctx1) else
  let ctx2 := fold_left (fun c fa => createLocal c (LFormal (formalName (fst fa))) (snd fa))
                (combine (sub_arguments symbol) args) ctx1 in
  (true, createLocal ctx2 LReturnVal (defaultValue (returnType symbol))).

(** Lines 722-738 of [CallExpression::evalImpl]: after the body ran with
    result [er], report a stray disable while the frame is still pushed,
    read the return value, pop the frame. *)
Definition finishCall (er : EvalResult) (ctx : EvalContext) : ConstantValue * EvalContext :=
  let ctx1 := match er with
              | Disable => addDiag ctx ConstEvalDisableTarget (disableRange ctx) []
              | _ => ctx
              end in
  let result := match findLocal ctx1 LReturnVal with Some v => v | None => CVBad end in
  let ctx2 := popFrame ctx1 in
  match er with
  | Fail | Disable => (CVBad, ctx2)
  | _ => (result, ctx2)
  end.

(** The argument loop of [CallExpression::evalImpl]: evaluate each argument
    in turn with [ev], stopping at the first bad value. *)
Fixpoint evalArgsWith (ev : EvalContext -> Expr -> ConstantValue * EvalContext)
    (ctx : EvalContext) (l : list Expr) : option (list ConstantValue) * EvalContext :=
  match l with
  | [] => (Some [], ctx)
  | a :: rest =>
      let (v, ctx1) := ev ctx a in
      match v with
      | CVBad => (None, ctx1)
      | CVInt _ =>
          let (vs, ctx2) := evalArgsWith ev ctx1 rest in
          match vs with
          | None => (None, ctx2)
          | Some vs' => (Some (v :: vs'), ctx2)
          end
      end
  end.

(** [Expression::eval] on the expressions of this development, with
    [CallExpression::evalImpl] for calls of user-defined subroutines,
    [MinTypMaxExpression::evalImpl] and [HierarchicalValueExpression::evalImpl].
    Arguments are evaluated left to right in the caller's frame. *)
Fixpoint eval (ctx : EvalContext) (e : Expr) {struct e} : ConstantValue * EvalContext :=
  match e with
  | InvalidExpression _ => (CVBad, ctx)
  | IntegerLiteral _ v => (CVInt v, ctx)
  | HierarchicalValueExpression _ _ _ => (CVBad, ctx)
  | MinTypMaxExpression _ min typ max sel =>
      match sel with
      | MTM_Min => eval ctx min
      | MTM_Typ => eval ctx typ
      | MTM_Max => eval ctx max
      end
  | CallExpression _ si thisClass args _ range =>
      match nth_error subroutines si with
      | None => (CVBad, ctx)
      | Some symbol =>
          let (ok, ctx1) := checkConstant ctx symbol range in
          if negb ok then (CVBad, ctx1) else
          match thisClass with
          | Some _ => (CVBad, ctx1)
          | None =>
              let (vals, ctx2) := evalArgsWith eval ctx1 args in
              match vals with
              | None => (CVBad, ctx2)
              | Some vs =>
                  let (pushed, ctx3) := setupCallFrame ctx2 symbol vs range in
                  if negb pushed then (CVBad, ctx3) else
                  let (er, ctx4) := evalBody symbol ctx3 in
                  finishCall er ctx4
              end
          end
      end
  end.

End Evaluation.

(* ------------------------------------------------------------------------- *)
(** * Constant verification ([Expression::verifyConstant]) *)

(** The verifier's state: the evaluation context, and the call-expression
    nodes whose mutable [inRecursion] member is currently set. *)
Record VState := mkV {
  vctx : EvalContext;
  inRecursion : list nat
}.

(** Verify a list of expressions in order with [vc], stopping at the first
    failure ([None] when [vc] runs out of fuel). *)
Fixpoint verifyAllWith (vc : VState -> Expr -> option (bool * VState))
    (st : VState) (l : list Expr) : option (bool * VState) :=
  match l with
  | [] => Some (true, st)
  | a :: rest =>
      match vc st a with
      | None => None
      | Some (false, st1) => Some (false, st1)
      | Some (true, st1) => verifyAllWith vc st1 rest
      end
  end.

Section Verification.

Variable subroutines : list SubroutineSymbol.

(** [Expression::verifyConstant], with [CallExpression::verifyConstantImpl],
    [HierarchicalValueExpression::verifyConstantImpl] and
    [MinTypMaxExpression::verifyConstantImpl].  [fuel] bounds the nesting
    of the recursion and [None] means it ran out.  The body of a subroutine
    is verified as its list of expressions, in order: the statement
    verifier is not in the sources.  Invalid expressions fail and literals
    pass.  The [ScopeGuard] clears the node's [inRecursion] flag on every
    exit after it was set. *)
Fixpoint verifyConstant (fuel : nat) (st : VState) (e : Expr) {struct fuel}
    : option (bool * VState) :=
  match fuel with
  | O => None
  | S f =>
  match e with
  | InvalidExpression _ => Some (false, st)
  | IntegerLiteral _ _ => Some (true, st)
  | HierarchicalValueExpression name _ range =>
      Some (false, mkV (addDiag (vctx st) ConstEvalHierarchicalNameInCE range [DStr name])
                       (inRecursion st))
  | MinTypMaxExpression _ min typ max sel =>
      verifyConstant f st (selectedOf min typ max sel)
  | CallExpression callId si thisClass args _ range =>
      let thisRes := match thisClass with
                     | None => Some (true, st)
                     | Some t => verifyConstant f st t
                     end in
      match thisRes with
      | None => None
      | Some (false, st1) => Some (false, st1)
      | Some (true, st1) =>
      match verifyAllWith (verifyConstant f) st1 args with
      | None => None
      | Some (false, st2) => Some (false, st2)
      | Some (true, st2) =>
      match nth_error subroutines si with
      | None => Some (false, st2)
      | Some symbol =>
          let (ok, c3) := checkConstant (vctx st2) symbol range in
          if negb ok then Some (false, mkV c3 (inRecursion st2)) else
          if existsb (Nat.eqb callId) (inRecursion st2)
          then Some (true, mkV c3 (inRecursion st2)) else
          let rec := callId :: inRecursion st2 in
          let (pushed, c4) := pushFrame c3 symbol range in
          if negb pushed then Some (false, mkV c4 (remove Nat.eq_dec callId rec)) else
          match verifyAllWith (verifyConstant f) (mkV c4 rec) (body symbol) with
          | None => None
          | Some (b, st5) =>
              Some (b, mkV (popFrame (vctx st5)) (remove Nat.eq_dec callId (inRecursion st5)))
          end
      end
      end
      end
  end
  end.

End Verification.


(** Nesting height of an expression as the verifier walks it. *)
Fixpoint height (e : Expr) : nat :=
  match e with
  | InvalidExpression _ | IntegerLiteral _ _ | HierarchicalValueExpression _ _ _ => 1
  | MinTypMaxExpression _ min typ max _ => S (Nat.max (height min) (Nat.max (height typ) (height max)))
  | CallExpression _ _ thisClass args _ _ =>
      S (Nat.max (match thisClass with Some t => height t | None => 0 end)
                 (list_max (map height args)))
  end.




(** Diagnostics reporting that the recursion limit was reached. *)
Definition isDepthDiag (d : Diag) : bool :=
  match dcode d with
  | ConstEvalExceededMaxCallDepth => true
  | _ => false
  end.

(** [c'] is [c] with the same options and frame stack, and some more
    diagnostics, none of them about the recursion limit. *)
Definition extendsCtx (c c' : EvalContext) : Prop :=
  options c' = options c /\ scriptEval c' = scriptEval c /\
  frames c' = frames c /\ disableRange c' = disableRange c /\
  exists ds, diags c' = diags c ++ ds /\ existsb isDepthDiag ds = false.

(* ------------------------------------------------------------------------- *)
(** * Call binding ([CallExpression::fromArgs]) *)

(** Expression syntax nodes are opaque here; they are bound by the binder. *)
Definition ExprSyntax := nat.

(** Argument syntax, with the location of its first token. *)
Inductive ArgumentSyntax :=
  | OrderedArgument (loc : nat) (expr : ExprSyntax)
  | NamedArgument (loc : nat) (name : string) (expr : option ExprSyntax)
  | EmptyArgument (loc : nat).

Definition argLoc (a : ArgumentSyntax) : nat :=
  match a with
  | OrderedArgument l _ | NamedArgument l _ _ | EmptyArgument l => l
  end.

(** A diagnostic issued through the bind context (no evaluation stack). *)
Definition bindDiag (code : DiagCode) (loc : nat) (args : list DiagArg) : Diag :=
  mkDiag code loc args [].

(** The [namedArgs] map: name -> (named argument syntax, used). *)
Definition NamedArgs := list (string * (ArgumentSyntax * bool)).

Definition findNamed (name : string) (m : NamedArgs) : option (ArgumentSyntax * bool) :=
  match find (fun kv => String.eqb (fst kv) name) m with
  | Some (_, v) => Some v
  | None => None
  end.

Definition markUsed (name : string) (m : NamedArgs) : NamedArgs :=
  map (fun kv => if String.eqb (fst kv) name then (fst kv, (fst (snd kv), true)) else kv) m.

(** Lines 358-391: split the argument list into ordered arguments and named
    ones.  [None] means the mixing error made [fromArgs] return early. *)
Fixpoint collectArgs (args : list ArgumentSyntax) (orderedArgs : list ArgumentSyntax)
    (namedArgs : NamedArgs) (ds : list Diag)
    : option (list ArgumentSyntax * NamedArgs) * list Diag :=
  match args with
  | [] => (Some (orderedArgs, namedArgs), ds)
  | arg :: rest =>
      match arg with
      | NamedArgument loc name _ =>
          if String.eqb name EmptyString then collectArgs rest orderedArgs namedArgs ds else
          match findNamed name namedArgs with
          | Some _ =>
              collectArgs rest orderedArgs namedArgs
                (ds ++ [bindDiag DuplicateArgAssignment loc [DStr name]])
          | None => collectArgs rest orderedArgs (namedArgs ++ [(name, (arg, false))]) ds
          end
      | _ =>
          match namedArgs with
          | _ :: _ => (None, ds ++ [bindDiag MixingOrderedAndNamedArgs (argLoc arg) []])
          | [] => collectArgs rest (orderedArgs ++ [arg]) namedArgs ds
          end
      end
  end.

(** The state of the binding loop of lines 394-466. *)
Record BindState := mkBS {
  orderedIndex : nat;
  namedState : NamedArgs;
  isBad : bool;
  boundArgs : list Expr;
  bdiags : list Diag
}.

Section Binding.

(** [Expression::bindArgument]: bind an argument expression against the
    formal's type, direction and constness.  The diagnostics reported while
    binding an argument expression are not modelled: the diagnostics list
    of [fromArgs] holds those issued by the call binding itself. *)
Variable bindArgument : Ty -> ArgumentDirection -> ExprSyntax -> bool -> Expr.

Definition bindFormal (formal : FormalArgumentSymbol) (e : ExprSyntax) : Expr :=
  bindArgument (formalType formal) (direction formal) e (isConstant formal).

(** Lines 399-466: one iteration per formal; [TooFewArguments] breaks out. *)
Fixpoint bindFormals (formals : list FormalArgumentSymbol) (numFormals : nat)
    (orderedArgs : list ArgumentSyntax) (range : nat) (st : BindState) : BindState :=
  match formals with
  | [] => st
  | formal :: rest =>
      let named := namedState st in
      let '(expr, named1, bad1, ds1, idx1, stop) :=
        if Nat.ltb (orderedIndex st) (List.length orderedArgs) then
          let arg := nth (orderedIndex st) orderedArgs (EmptyArgument 0) in
          let '(expr, ds0) :=
            match arg with
            | OrderedArgument _ e => (Some (bindFormal formal e), bdiags st)
            | _ =>
                match initializer formal with
                | Some i => (Some i, bdiags st)
                | None => (None, bdiags st ++ [bindDiag ArgCannotBeEmpty (argLoc arg)
                                                 [DStr (formalName formal)]])
                end
            end in
          match findNamed (formalName formal) named with
          | Some (nas, _) =>
              (expr, markUsed (formalName formal) named, true,
               ds0 ++ [bindDiag DuplicateArgAssignment (argLoc nas) [DStr (formalName formal)]],
               S (orderedIndex st), false)
          | None => (expr, named, isBad st, ds0, S (orderedIndex st), false)
          end
        else
          match findNamed (formalName formal) named with
          | Some (nas, _) =>
              let named' := markUsed (formalName formal) named in
              match nas with
              | NamedArgument _ _ (Some e) =>
                  (Some (bindFormal formal e), named', isBad st, bdiags st, orderedIndex st, false)
              | _ =>
                  match initializer formal with
                  | Some i => (Some i, named', isBad st, bdiags st, orderedIndex st, false)
                  | None =>
                      (None, named', isBad st,
                       bdiags st ++ [bindDiag ArgCannotBeEmpty (argLoc nas) [DStr (formalName formal)]],
                       orderedIndex st, false)
                  end
              end
          | None =>
              match initializer formal with
              | Some i => (Some i, named, isBad st, bdiags st, orderedIndex st, false)
              | None =>
                  match named with
                  | [] =>
                      (None, named, true,
                       bdiags st ++ [bindDiag TooFewArguments range
                                       [DNat numFormals; DNat (List.length orderedArgs)]],
                       orderedIndex st, true)
                  | _ :: _ =>
                      (None, named, isBad st,
                       bdiags st ++ [bindDiag UnconnectedArg range [DStr (formalName formal)]],
                       orderedIndex st, false)
                  end
              end
          end in
      if stop then mkBS idx1 named1 bad1 (boundArgs st) ds1 else
      let st1 :=
        match expr with
        | None => mkBS idx1 named1 true (boundArgs st) ds1
        | Some x => mkBS idx1 named1 (bad1 || bad x) (boundArgs st ++ [x]) ds1
        end in
      bindFormals rest numFormals orderedArgs range st1
  end.

(** [CallExpression::fromArgs] for a user-defined subroutine [symbol] at
    index [si]; [callId] is the node the call expression is allocated as.
    The diagnostics issued are appended to [ds]. *)
Definition fromArgs (ds : list Diag) (si : nat) (symbol : SubroutineSymbol)
    (callId : nat) (thisClass : option Expr) (argSyntax : option (list ArgumentSyntax))
    (range : nat) : Expr * list Diag :=
  let args := match argSyntax with Some l => l | None => [] end in
  match collectArgs args [] [] ds with
  | (None, ds1) => (badExpr None, ds1)
  | (Some (orderedArgs, namedArgs), ds1) =>
      let formals := sub_arguments symbol in
      let st := bindFormals formals (List.length formals) orderedArgs range
                  (mkBS 0 namedArgs false [] ds1) in
      let '(bad2, ds2) :=
        if Nat.ltb (orderedIndex st) (List.length orderedArgs) then
          (true, bdiags st ++ [bindDiag TooManyArguments range
                                 [DNat (List.length formals); DNat (List.length orderedArgs)]])
        else (isBad st, bdiags st) in
      let unused := filter (fun kv => negb (snd (snd kv))) (namedState st) in
      let ds3 := ds2 ++ map (fun kv => bindDiag ArgDoesNotExist (argLoc (fst (snd kv)))
                                         [DStr (fst kv); DStr (sub_name symbol)]) unused in
      let bad3 := bad2 || negb (Nat.eqb (List.length unused) 0) in
      let result := CallExpression callId si thisClass (boundArgs st) (returnType symbol) range in
      if bad3 then (badExpr (Some result), ds3) else (result, ds3)
  end.

End Binding.

(* ------------------------------------------------------------------------- *)
(** * [MinTypMaxExpression::fromSyntax] *)

Inductive BindFlags := BF_None | BF_UnevaluatedBranch.

Section MinTypMaxBinding.

(** [Expression::create]: bind a sub-expression with extra bind flags. *)
Variable create : ExprSyntax -> BindFlags -> Expr.

Definition minTypMaxFromSyntax (opts : CompilationOptions)
    (minSyntax typSyntax maxSyntax : ExprSyntax) : Expr :=
  let minFlags := match minTypMax opts with MTM_Min => BF_None | _ => BF_UnevaluatedBranch end in
  let typFlags := match minTypMax opts with MTM_Typ => BF_None | _ => BF_UnevaluatedBranch end in
  let maxFlags := match minTypMax opts with MTM_Max => BF_None | _ => BF_UnevaluatedBranch end in
  let min := create minSyntax minFlags in
  let typ := create typSyntax typFlags in
  let max := create maxSyntax maxFlags in
  let selected := selectedOf min typ max (minTypMax opts) in
  let result := MinTypMaxExpression (exprType selected) min typ max (minTypMax opts) in
  if bad min || bad typ || bad max then badExpr (Some result) else result.

End MinTypMaxBinding.

(* ------------------------------------------------------------------------- *)
(** * MemberSymbols.cpp (explicit imports, subroutine formal arguments) *)

Module MemberSymbols.

Record Symbol := mkSymbol { symbolName : string }.

Record PackageSymbol := mkPackage {
  packageSymName : string;
  packageMembers : list (string * Symbol)
}.

(** [Scope::lookupDirect]: a member of the package's own namespace. *)
Definition lookupDirect (p : PackageSymbol) (name : string) : option Symbol :=
  match find (fun kv => String.eqb (fst kv) name) (packageMembers p) with
  | Some (_, s) => Some s
  | None => None
  end.

Record DesignRootSymbol := mkRoot { packages : list PackageSymbol }.

(** [DesignRootSymbol::findPackage]. *)
Definition findPackage (root : DesignRootSymbol) (name : string) : option PackageSymbol :=
  find (fun p => String.eqb (packageSymName p) name) (packages root).

(** An explicit import with its lazily filled members. *)
Record ExplicitImportSymbol := mkImport {
  packageName : string;
  importName : string;
  initialized : bool;
  package_ : option PackageSymbol;
  import_ : option Symbol
}.

(** The constructor: the lazy members start out unset. *)
Definition newExplicitImport (packageName importName : string) : ExplicitImportSymbol :=
  mkImport packageName importName false None None.

(** [ExplicitImportSymbol::importedSymbol]; [ds] is the compilation's
    diagnostics, passed through. *)
Definition importedSymbol (root : DesignRootSymbol) (ds : list Diag)
    (self : ExplicitImportSymbol) : option Symbol * ExplicitImportSymbol * list Diag :=
  if initialized self then (import_ self, self, ds) else
  let pkg := findPackage root (packageName self) in
  let imp := match pkg with
             | Some p => lookupDirect p (importName self)
             | None => import_ self
             end in
  (imp, mkImport (packageName self) (importName self) true pkg imp, ds).

Inductive TokenKind :=
  | InputKeyword | OutputKeyword | InOutKeyword | RefKeyword | Unknown | Identifier.

Inductive FormalArgumentDirection := DirIn | DirOut | DirInOut | DirRef | DirConstRef.

(** Data type syntax nodes are opaque. *)
Definition DataTypeSyntax := nat.

Record FunctionPortSyntax := mkPort {
  portDirection : TokenKind;
  constKeyword : bool;
  dataType : option DataTypeSyntax;
  portName : string;
  portInitializer : option ExprSyntax
}.

(** The type given to a formal: the [logic] type, or a data type syntax. *)
Inductive ArgType := LogicType | SyntaxType (t : DataTypeSyntax).

Record FormalArg := mkFormalArg {
  argName : string;
  argDirection : FormalArgumentDirection;
  argType : ArgType;
  argInitializer : option ExprSyntax
}.

(** The direction switch of the port loop; [None] is [THROW_UNREACHABLE]. *)
Definition portDirectionOf (p : FunctionPortSyntax) (lastDirection : FormalArgumentDirection)
    : option (FormalArgumentDirection * bool) :=
  match portDirection p with
  | InputKeyword => Some (DirIn, true)
  | OutputKeyword => Some (DirOut, true)
  | InOutKeyword => Some (DirInOut, true)
  | RefKeyword => Some (if constKeyword p then DirConstRef else DirRef, true)
  | Unknown => Some (lastDirection, false)
  | Identifier => None
  end.

(** The port loop of [SubroutineSymbol::fromSyntax] (lines 249-298). *)
Fixpoint portLoop (ports : list FunctionPortSyntax) (lastType : option DataTypeSyntax)
    (lastDirection : FormalArgumentDirection) : option (list FormalArg) :=
  match ports with
  | [] => Some []
  | portSyntax :: rest =>
      match portDirectionOf portSyntax lastDirection with
      | None => None
      | Some (direction, directionSpecified) =>
          let '(ty, lastType') :=
            match dataType portSyntax with
            | Some dt => (SyntaxType dt, Some dt)
            | None =>
                match directionSpecified, lastType with
                | true, _ | _, None => (LogicType, None)
                | false, Some lt => (SyntaxType lt, lastType)
                end
            end in
          let arg := mkFormalArg (portName portSyntax) direction ty (portInitializer portSyntax) in
          match portLoop rest lastType' direction with
          | None => None
          | Some args => Some (arg :: args)
          end
      end
  end.

(** The formal arguments built by [SubroutineSymbol::fromSyntax] from the
    prototype's optional port list. *)
Definition formalsFromSyntax (portList : option (list FunctionPortSyntax))
    : option (list FormalArg) :=
  match portList with
  | None => Some []
  | Some ports => portLoop ports None DirIn
  end.

(** The port rule in the words of the claim: a port without a direction
    keyword takes the direction of the previous port (input for the first);
    a port without a data type is [logic] if it has a direction keyword or
    there is no previous port, and has the previous port's type otherwise. *)
Fixpoint portsAsDescribed (prev : option FormalArg) (ports : list FunctionPortSyntax)
    : option (list FormalArg) :=
  match ports with
  | [] => Some []
  | p :: rest =>
      let inherited := match prev with Some a => argDirection a | None => DirIn end in
      match portDirectionOf p inherited with
      | None => None
      | Some (dir, specified) =>
          let ty := match dataType p with
                    | Some dt => SyntaxType dt
                    | None =>
                        if specified then LogicType
                        else match prev with Some a => argType a | None => LogicType end
                    end in
          let arg := mkFormalArg (portName p) dir ty (portInitializer p) in
          match portsAsDescribed (Some arg) rest with
          | None => None
          | Some args => Some (arg :: args)
          end
      end
  end.

End MemberSymbols.

(** [Type::isClass] (Type.h). *)
Definition isClass (t : Ty) : bool := SymbolKind_eqb (tyKind (getCanonicalType t)) ClassType.

(* ------------------------------------------------------------------------- *)
(** * Value expressions and call lookup (MiscExpressions.cpp) *)

Module ValueExpressions.

(** The symbol kinds these functions test. *)
Inductive VKind :=
  | VK_Variable | VK_FormalArgument | VK_ClassProperty | VK_Parameter | VK_EnumValue
  | VK_Net | VK_Subroutine | VK_ClassType | VK_StatementBlock | VK_Root | VK_Other.

Definition VKind_eqb (a b : VKind) : bool :=
  match a, b with
  | VK_Variable, VK_Variable | VK_FormalArgument, VK_FormalArgument
  | VK_ClassProperty, VK_ClassProperty | VK_Parameter, VK_Parameter
  | VK_EnumValue, VK_EnumValue | VK_Net, VK_Net | VK_Subroutine, VK_Subroutine
  | VK_ClassType, VK_ClassType | VK_StatementBlock, VK_StatementBlock
  | VK_Root, VK_Root | VK_Other, VK_Other => true
  | _, _ => false
  end.

(** A symbol: its identity (address), kind and name; [symStatic] is
    [flags & MethodFlags::Static] of a subroutine, [symAutomatic] is
    [lifetime == VariableLifetime::Automatic] of a variable. *)
Record Sym := mkSym {
  symId : nat;
  vkind : VKind;
  symName : string;
  symStatic : bool;
  symAutomatic : bool
}.

Inductive VDiagCode :=
  | NotAValue | NestedNonStaticClassProperty | NonStaticClassProperty | AutoFromStaticInit
  | NestedNonStaticClassMethod | NonStaticClassMethod | WithClauseNotAllowed
  | MissingInvocationParens | ConstEvalClassType | ConstEvalFunctionIdentifiersMustBeLocal
  | ConstEvalIdUsedInCEBeforeDecl | ConstEvalNonConstVariable.

Record VDiag := mkVDiag { vcode : VDiagCode; vrange : nat; vargs : list DiagArg }.

(** [getParentClass] (lines 24-48).  [chain] is the lookup scope's symbol
    followed by the symbols of its enclosing scopes, outermost last; [None]
    is the [ASSERT(parentScope)] failing past the outermost scope. *)
Fixpoint getParentClassFrom (chain : list Sym) (inStatic : bool) : option (option Sym * bool) :=
  match chain with
  | [] => None
  | parent :: rest =>
      if VKind_eqb (vkind parent) VK_Subroutine then
        getParentClassFrom rest (inStatic || symStatic parent)
      else if VKind_eqb (vkind parent) VK_ClassType then Some (Some parent, inStatic)
      else if negb (VKind_eqb (vkind parent) VK_StatementBlock) then Some (None, false)
      else getParentClassFrom rest inStatic
  end.

Definition getParentClass (chain : list Sym) : option (option Sym * bool) :=
  getParentClassFrom chain false.

Section Lookup.

(** [Symbol::isValue], [VariableSymbol::isKind] and [Type::isAssignmentCompatible]
    on class types (declared outside the sources). *)
Variable isValueKind : VKind -> bool.
Variable isVariableKind : VKind -> bool.
Variable isAssignmentCompatible : Sym -> Sym -> bool.

(** [isAccessibleFrom] (lines 51-62); [targetParent] is the symbol of the
    target's parent scope. *)
Definition isAccessibleFrom (targetParent sourceScope : Sym) : bool :=
  if Nat.eqb (symId sourceScope) (symId targetParent) then true
  else if negb (VKind_eqb (vkind targetParent) VK_ClassType) then false
  else isAssignmentCompatible targetParent sourceScope.

(** Bound value expressions. *)
Inductive VExpr :=
  | VBad
  | NamedValueExpression (symbol : Sym) (sourceRange : nat)
  | HierarchicalValue (symbol : Sym) (sourceRange : nat).

(** [ValueExpressionBase::fromSymbol] (lines 64-101).  [chain] is the
    binding context's scope as for [getParentClass], [staticInit] is
    [context.flags & BindFlags::StaticInitializer]; the diagnostics issued
    are appended to [ds]. *)
Definition fromSymbol (chain : list Sym) (staticInit : bool) (ds : list VDiag)
    (symbol targetParent : Sym) (isHierarchical : bool) (sourceRange : nat)
    : option (VExpr * list VDiag) :=
  if negb (isValueKind (vkind symbol)) then
    Some (VBad, ds ++ [mkVDiag NotAValue sourceRange [DStr (symName symbol)]]) else
  let checked :=
    if isVariableKind (vkind symbol) && symAutomatic symbol then
      if VKind_eqb (vkind symbol) VK_ClassProperty then
        match getParentClass chain with
        | None => None
        | Some (parent, inStatic) =>
            match parent with
            | Some p =>
                if negb (isAccessibleFrom targetParent p) then
                  Some (Some (mkVDiag NestedNonStaticClassProperty sourceRange
                                [DStr (symName symbol); DStr (symName p)]))
                else if inStatic || staticInit then
                  Some (Some (mkVDiag NonStaticClassProperty sourceRange [DStr (symName symbol)]))
                else Some None
            | None =>
                Some (Some (mkVDiag NonStaticClassProperty sourceRange [DStr (symName symbol)]))
            end
        end
      else if staticInit then
        Some (Some (mkVDiag AutoFromStaticInit sourceRange [DStr (symName symbol)]))
      else Some None
    else Some None in
  match checked with
  | None => None
  | Some (Some d) => Some (VBad, ds ++ [d])
  | Some None =>
      Some (if isHierarchical then HierarchicalValue symbol sourceRange
            else NamedValueExpression symbol sourceRange, ds)
  end.

(** The outcome of [CallExpression::fromLookup] for a user-defined
    subroutine: rejected with one diagnostic (the result is
    [badExpr(nullptr)]), or the call bound by [fromArgs]. *)
Inductive LookupResult :=
  | Rejected (d : VDiag)
  | Bound (e : Expr) (ds : list Diag).

(** [Expression::bindArgument] in the caller's bind context: the arguments
    are bound in the scope [chain] with the context's static-initializer
    flag, which [fromLookup] forwards to [fromArgs] (line 343).  The
    diagnostics reported while binding an argument expression are not
    modelled; [ds] collects those issued by the call binding itself. *)
Variable bindArgument : list Sym -> bool -> Ty -> ArgumentDirection -> ExprSyntax -> bool -> Expr.

(** [CallExpression::fromLookup] (lines 297-349) for the user-defined
    subroutine [sub] at index [si], whose parent scope's symbol is
    [subParent].  [invocation] is the argument list of the invocation syntax
    when there is one ([Some None]: parentheses without arguments);
    [withClause] the range of a [with] clause. *)
Definition fromLookup (chain : list Sym) (staticInit : bool) (ds : list Diag)
    (si : nat) (sub : SubroutineSymbol) (subParent : Sym) (callId : nat)
    (thisClass : option Expr) (invocation : option (option (list ArgumentSyntax)))
    (withClause : option nat) (range : nat) : option LookupResult :=
  let access :=
    if negb (flags_has (flags sub) MF_Static) &&
       match thisClass with None => true | Some _ => false end &&
       VKind_eqb (vkind subParent) VK_ClassType then
      match getParentClass chain with
      | None => None
      | Some (Some p, inStatic) =>
          if negb (isAccessibleFrom subParent p) then
            Some (Some (mkVDiag NestedNonStaticClassMethod range [DStr (symName p)]))
          else if inStatic || staticInit then Some (Some (mkVDiag NonStaticClassMethod range []))
          else Some None
      | Some (None, _) => Some (Some (mkVDiag NonStaticClassMethod range []))
      end
    else Some None in
  match access with
  | None => None
  | Some (Some d) => Some (Rejected d)
  | Some None =>
      match withClause with
      | Some wr => Some (Rejected (mkVDiag WithClauseNotAllowed wr [DStr (sub_name sub)]))
      | None =>
          if match invocation with None => true | Some _ => false end &&
             negb (VKind_eqb (vkind subParent) VK_ClassType) &&
             negb (isVoid (returnType sub)) then
            Some (Rejected (mkVDiag MissingInvocationParens range [DStr (sub_name sub)]))
          else
            let args := match invocation with Some a => a | None => None end in
            let '(e, ds') := fromArgs (bindArgument chain staticInit) ds si sub callId thisClass
                               args range in
            Some (Bound e ds')
      end
  end.

End Lookup.

(** The innermost-first walk of [NamedValueExpression::verifyConstantImpl]
    (lines 221-223) over the enclosing scopes [scopes] of the symbol: the
    scope reached when the loop stops ([None] is the null scope). *)
Fixpoint walkToSubroutine (scopes : list nat) (subroutine : nat) : option nat :=
  match scopes with
  | [] => None
  | s :: rest => if Nat.eqb s subroutine then Some s else walkToSubroutine rest subroutine
  end.

(** [NamedValueExpression::verifyConstantImpl] (lines 201-247).  [ty] is the
    expression's type, [topSub] the subroutine of the top frame (if any),
    [scopes] the ids of the symbol's enclosing scopes innermost first, and
    [declaredBefore] the result of [isDeclaredBefore] on the frame's lookup
    location. *)
Definition verifyNamedValue (scriptEval : bool) (ty : Ty) (topSub : option nat)
    (symbol : Sym) (scopes : list nat) (declaredBefore : option bool) (sourceRange : nat)
    (ds : list VDiag) : bool * list VDiag :=
  if scriptEval then (true, ds) else
  if isClass ty then (false, ds ++ [mkVDiag ConstEvalClassType sourceRange []]) else
  match topSub with
  | None => (true, ds)
  | Some sub =>
      if negb (VKind_eqb (vkind symbol) VK_Parameter) &&
         negb (VKind_eqb (vkind symbol) VK_EnumValue) then
        match walkToSubroutine scopes sub with
        | Some s => if Nat.eqb s sub then (true, ds)
                    else (false, ds ++ [mkVDiag ConstEvalFunctionIdentifiersMustBeLocal sourceRange []])
        | None => (false, ds ++ [mkVDiag ConstEvalFunctionIdentifiersMustBeLocal sourceRange []])
        end
      else
        match declaredBefore with
        | Some false =>
            (false, ds ++ [mkVDiag ConstEvalIdUsedInCEBeforeDecl sourceRange [DStr (symName symbol)]])
        | _ => (true, ds)
        end
  end.

(** [NamedValueExpression::evalImpl] (lines 164-185).  [value] is the
    parameter's or enum value's [getValue()], [local] the result of
    [findLocal] on the top frame. *)
Definition evalNamedValue (scriptEval : bool) (ty : Ty) (topSub : option nat)
    (symbol : Sym) (scopes : list nat) (declaredBefore : option bool) (sourceRange : nat)
    (value : ConstantValue) (local : option ConstantValue) (ds : list VDiag)
    : ConstantValue * list VDiag :=
  let '(ok, ds1) := verifyNamedValue scriptEval ty topSub symbol scopes declaredBefore
                      sourceRange ds in
  if negb ok then (CVBad, ds1) else
  if VKind_eqb (vkind symbol) VK_Parameter || VKind_eqb (vkind symbol) VK_EnumValue
  then (value, ds1) else
  match local with
  | Some v => (v, ds1)
  | None => (CVBad, ds1 ++ [mkVDiag ConstEvalNonConstVariable sourceRange [DStr (symName symbol)]])
  end.

End ValueExpressions.


(* ------------------------------------------------------------------------- *)
(** * MemberSymbols.cpp (package lookups, subroutine bodies) *)

Module MemberBodies.
Import MemberSymbols.

(** [ExplicitImportSymbol::package] (lines 52-55): resolve the import, then
    return the cached package. *)
Definition package (root : DesignRootSymbol) (ds : list Diag) (self : ExplicitImportSymbol)
    : option PackageSymbol * ExplicitImportSymbol * list Diag :=
  let '(_, self', ds') := importedSymbol root ds self in
  (package_ self', self', ds').

(** A wildcard import.  [getPackage] stores the result of [findPackage]
    in [package] and dereferences it, so the member holds an optional
    package pointer: [None] when unset, [Some None] for a cached null. *)
Record WildcardImportSymbol := mkWildcard {
  wildcardPackageName : string;
  wildcardPackage : option (option PackageSymbol)
}.

(** [WildcardImportSymbol::getPackage] (lines 75-79). *)
Definition getPackage (root : DesignRootSymbol) (self : WildcardImportSymbol)
    : option PackageSymbol * WildcardImportSymbol :=
  match wildcardPackage self with
  | Some p => (p, self)
  | None =>
      let p := findPackage root (wildcardPackageName self) in
      (p, mkWildcard (wildcardPackageName self) (Some p))
  end.

(** Syntax of subroutine bodies, as far as [findChildSymbols] inspects it. *)
Record VariableDeclaratorSyntax := mkDeclarator {
  declName : string;
  declInitializer : option ExprSyntax
}.

Inductive ForInitializerSyntax :=
  | ForVariableDeclaration (type : DataTypeSyntax) (declarator : VariableDeclaratorSyntax)
  | ForInitializerExpression (expr : ExprSyntax).

Inductive StatementSyntax :=
  | ConditionalStatement (statement : StatementSyntax) (elseClause : option StatementSyntax)
  | ForLoopStatement (initializers : list ForInitializerSyntax) (statement : StatementSyntax)
  | SequentialBlockStatement
  | OtherStatement.

Inductive SyntaxNode :=
  | DataDeclaration (type : DataTypeSyntax) (declarators : list VariableDeclaratorSyntax)
  | StatementItem (statement : StatementSyntax)
  | OtherItem.

(** The member symbols these functions create. *)
Inductive MemberSymbol :=
  | VariableSym (name : string) (type : DataTypeSyntax) (initializer : option ExprSyntax)
  | FormalArgumentSym (arg : FormalArg)
  | SequentialBlockSym (members : list MemberSymbol).

(** [VariableSymbol::fromSyntax] (lines 144-154). *)
Definition variablesFromSyntax (type : DataTypeSyntax) (declarators : list VariableDeclaratorSyntax)
    : list MemberSymbol :=
  map (fun d => VariableSym (declName d) type (declInitializer d)) declarators.

(** [SequentialBlockSymbol::createImplicitBlock] (lines 21-35).  [None] is
    the failure of the [as<ForVariableDeclarationSyntax>] cast on the first
    initializer, or the dereference of a missing declarator initializer. *)
Definition createImplicitBlock (initializers : list ForInitializerSyntax) : option MemberSymbol :=
  match initializers with
  | ForVariableDeclaration type d :: _ =>
      match declInitializer d with
      | Some e => Some (SequentialBlockSym [VariableSym (declName d) type (Some e)])
      | None => None
      end
  | _ => None
  end.

Definition isForVariableDeclaration (i : ForInitializerSyntax) : bool :=
  match i with ForVariableDeclaration _ _ => true | ForInitializerExpression _ => false end.

(** [findChildSymbols] on a statement (lines 176-212): the symbols it
    appends to [results]. *)
Fixpoint findChildSymbolsStmt (syntax : StatementSyntax) : option (list MemberSymbol) :=
  match syntax with
  | ConditionalStatement statement elseClause =>
      match findChildSymbolsStmt statement with
      | None => None
      | Some r1 =>
          match elseClause with
          | None => Some r1
          | Some clause =>
              match findChildSymbolsStmt clause with
              | None => None
              | Some r2 => Some (r1 ++ r2)
              end
          end
      end
  | ForLoopStatement initializers statement =>
      if existsb isForVariableDeclaration initializers then
        match createImplicitBlock initializers with
        | None => None
        | Some block => Some [block]
        end
      else findChildSymbolsStmt statement
  | SequentialBlockStatement => Some [SequentialBlockSym []]
  | OtherStatement => Some []
  end.

(** [findChildSymbols] on a list of body items (lines 214-226). *)
Fixpoint findChildSymbols (items : list SyntaxNode) : option (list MemberSymbol) :=
  match items with
  | [] => Some []
  | item :: rest =>
      let here :=
        match item with
        | DataDeclaration type declarators => Some (variablesFromSyntax type declarators)
        | StatementItem s => findChildSymbolsStmt s
        | OtherItem => Some []
        end in
      match here with
      | None => None
      | Some r1 =>
          match findChildSymbols rest with
          | None => None
          | Some r2 => Some (r1 ++ r2)
          end
      end
  end.

(** The members set by [SubroutineSymbol::fromSyntax] (lines 248-312): the
    formal arguments, then the child symbols of the body items. *)
Definition subroutineMembers (portList : option (list FunctionPortSyntax))
    (items : list SyntaxNode) : option (list FormalArg * list MemberSymbol) :=
  match formalsFromSyntax portList with
  | None => None
  | Some arguments =>
      match findChildSymbols items with
      | None => None
      | Some children => Some (arguments, map FormalArgumentSym arguments ++ children)
      end
  end.

End MemberBodies.

(* ========================================================================= *)
(** * Properties *)

Lemma SymbolKind_eqb_eq a b : SymbolKind_eqb a b = true <-> a = b.
Proof. destruct a, b; simpl; split; congruence. Qed.

(** ** Canonical types *)

Lemma getCanonicalType_is_type (t : Ty) :
  exists k n, getCanonicalType t = mkType k n.
Proof.
  induction t as [k n | n target IH]; simpl; eauto.
Qed.

(** C7: taking the canonical type is idempotent, and a non-alias type's
    [canonical] member is the type itself. *)
Theorem getCanonicalType_idempotent (t : Ty) :
  getCanonicalType (getCanonicalType t) = getCanonicalType t /\
  (forall k n, t = mkType k n -> canonicalField t = Some t).
Proof.
  split.
  - destruct (getCanonicalType_is_type t) as [k [n ->]]. reflexivity.
  - intros k n ->. reflexivity.
Qed.

(** ** [checkConstant] *)

Definition ctxNoScript : EvalContext :=
  mkCtx (mkOptions MTM_Typ false 100) false [] [] 0.

(** A plain function returning [int], with no formals, declared in a
    compilation unit, whose only mark is the [NotConst] flag. *)
Definition notConstFunction : SubroutineSymbol :=
  mkSubroutine "f"%string SK_Function MF_NotConst intType [] CompilationUnit [].

(** C1 (counterexample): none of the reasons listed by the claim applies,
    yet [checkConstant] fails, because of the [NotConst] flag. *)
Lemma checkConstant_notConst_fails :
  claimedNonConstant (subroutineKind notConstFunction) (flags notConstFunction)
    (returnType notConstFunction) (map direction (sub_arguments notConstFunction))
    (parentKind notConstFunction) = false /\
  checkConstant ctxNoScript notConstFunction 0 =
    (false, addDiag ctxNoScript ConstEvalSubroutineNotConstant 0 [DStr "f"%string]).
Proof. split; reflexivity. Qed.

Lemma lor_eqb_0 x y : (Z.lor x y =? 0)%Z = (x =? 0)%Z && (y =? 0)%Z.
Proof.
  destruct (Z.eqb_spec (Z.lor x y) 0) as [H | H].
  - apply Z.lor_eq_0_iff in H as [-> ->]. reflexivity.
  - destruct (Z.eqb_spec x 0) as [-> | ]; destruct (Z.eqb_spec y 0) as [-> | ];
      try reflexivity. exfalso. apply H. reflexivity.
Qed.

Lemma flags_has_lor3 fl a b c :
  flags_has fl (Z.lor (Z.lor a b) c) = flags_has fl a || flags_has fl b || flags_has fl c.
Proof.
  unfold flags_has. rewrite !Z.land_lor_distr_r, !lor_eqb_0.
  destruct (Z.land fl a =? 0)%Z, (Z.land fl b =? 0)%Z, (Z.land fl c =? 0)%Z; reflexivity.
Qed.

Lemma existsb_map_dir (args : list FormalArgumentSymbol) :
  existsb (fun d => negb (ArgumentDirection_eqb d ArgIn)) (map direction args) =
  existsb (fun arg => negb (ArgumentDirection_eqb (direction arg) ArgIn)) args.
Proof. induction args; simpl; congruence. Qed.

(** C1 (amended): outside script evaluation, [checkConstant] fails exactly
    when one of the reasons listed by the claim applies or the subroutine
    carries the [NotConst] flag; a failure adds one diagnostic, a success
    leaves the context unchanged. *)
Theorem checkConstant_spec (ctx : EvalContext) (sub : SubroutineSymbol) (range : nat)
    (Hscript : scriptEval ctx = false) :
  (fst (checkConstant ctx sub range) = false <->
     claimedNonConstant (subroutineKind sub) (flags sub) (returnType sub)
       (map direction (sub_arguments sub)) (parentKind sub) = true \/
     flags_has (flags sub) MF_NotConst = true) /\
  (fst (checkConstant ctx sub range) = false ->
     exists code args, snd (checkConstant ctx sub range) = addDiag ctx code range args) /\
  (fst (checkConstant ctx sub range) = true -> snd (checkConstant ctx sub range) = ctx).
Proof.
  unfold checkConstant, claimedNonConstant.
  rewrite Hscript, existsb_map_dir, flags_has_lor3.
  destruct (subroutineKind sub);
  destruct (flags_has (flags sub) MF_DPIImport);
  destruct (flags_has (flags sub) MF_Virtual);
  destruct (flags_has (flags sub) MF_Pure);
  destruct (flags_has (flags sub) MF_Constructor);
  destruct (flags_has (flags sub) MF_NotConst);
  destruct (isVoid (returnType sub));
  destruct (existsb _ (sub_arguments sub));
  destruct (SymbolKind_eqb (parentKind sub) GenerateBlock); simpl;
  (split; [split; intros; auto; try discriminate;
           match goal with H : _ \/ _ |- _ => destruct H; discriminate end |]);
  (split; intros; first [discriminate | eexists; eexists; reflexivity | reflexivity]).
Qed.

(** The hypothesis of [checkConstant_spec] holds for [ctxNoScript]. *)
Lemma checkConstant_spec_witness :
  scriptEval ctxNoScript = false /\
  fst (checkConstant ctxNoScript notConstFunction 0) = false.
Proof.
  split; [reflexivity|].
  destruct (checkConstant_spec ctxNoScript notConstFunction 0 eq_refl) as [[_ H] _].
  apply H. right. reflexivity.
Defined.

(** ** Subroutine formal arguments (MemberSymbols.cpp) *)

Section PortLoop.
Import MemberSymbols.

(** What the loop state ([lastType], [lastDirection]) says about the
    previously built formal. *)
Definition portLoopInv (prev : option FormalArg) (lastType : option DataTypeSyntax)
    (lastDirection : FormalArgumentDirection) : Prop :=
  match prev with
  | None => lastType = None /\ lastDirection = DirIn
  | Some a =>
      argDirection a = lastDirection /\
      argType a = match lastType with Some dt => SyntaxType dt | None => LogicType end
  end.

Lemma portLoop_as_described (ports : list FunctionPortSyntax) :
  forall prev lastType lastDirection,
    portLoopInv prev lastType lastDirection ->
    portLoop ports lastType lastDirection = portsAsDescribed prev ports.
Proof.
  induction ports as [| p rest IH]; intros prev lastType lastDirection Hinv; [reflexivity|].
  simpl.
  assert (Hinh : (match prev with Some a => argDirection a | None => DirIn end) = lastDirection).
  { destruct prev; destruct Hinv; congruence. }
  rewrite Hinh.
  destruct (portDirectionOf p lastDirection) as [[dir specified] |]; [|reflexivity].
  destruct (dataType p) as [dt |] eqn:Hdt.
  - rewrite (IH (Some (mkFormalArg (portName p) dir (SyntaxType dt) (portInitializer p)))
               (Some dt) dir); [reflexivity|]. simpl. split; reflexivity.
  - destruct specified.
    + rewrite (IH (Some (mkFormalArg (portName p) dir LogicType (portInitializer p))) None dir);
        [reflexivity|]. simpl. split; reflexivity.
    + destruct lastType as [lt |].
      * destruct prev as [a |]; [| destruct Hinv; discriminate].
        destruct Hinv as [_ Hty]. rewrite Hty.
        rewrite (IH (Some (mkFormalArg (portName p) dir (SyntaxType lt) (portInitializer p)))
                   (Some lt) dir); [reflexivity|]. simpl. split; reflexivity.
      * assert (Hprev : (match prev with Some a => argType a | None => LogicType end) = LogicType).
        { destruct prev; [destruct Hinv as [_ Hty]; exact Hty | reflexivity]. }
        rewrite Hprev.
        rewrite (IH (Some (mkFormalArg (portName p) dir LogicType (portInitializer p))) None dir);
          [reflexivity|]. simpl. split; reflexivity.
Qed.

(** C10: the formals built from a port list follow the described rule:
    without a direction keyword a port takes the previous port's direction
    (input for the first); without a data type it is [logic] when a
    direction keyword is given or no previous port exists, and otherwise
    has the previous port's type. *)
Theorem formalsFromSyntax_port_rule (ports : list FunctionPortSyntax) :
  formalsFromSyntax (Some ports) = portsAsDescribed None ports.
Proof.
  apply portLoop_as_described. simpl. split; reflexivity.
Qed.

End PortLoop.

Example formalsFromSyntax_example :
  MemberSymbols.formalsFromSyntax
    (Some [MemberSymbols.mkPort MemberSymbols.OutputKeyword false (Some 7) "a"%string None;
           MemberSymbols.mkPort MemberSymbols.Unknown false None "b"%string None;
           MemberSymbols.mkPort MemberSymbols.InputKeyword false None "c"%string None;
           MemberSymbols.mkPort MemberSymbols.Unknown false None "d"%string None]) =
  Some [MemberSymbols.mkFormalArg "a"%string MemberSymbols.DirOut (MemberSymbols.SyntaxType 7) None;
        MemberSymbols.mkFormalArg "b"%string MemberSymbols.DirOut (MemberSymbols.SyntaxType 7) None;
        MemberSymbols.mkFormalArg "c"%string MemberSymbols.DirIn MemberSymbols.LogicType None;
        MemberSymbols.mkFormalArg "d"%string MemberSymbols.DirIn MemberSymbols.LogicType None].
Proof. reflexivity. Qed.

(** ** Explicit imports (MemberSymbols.cpp) *)

(** Once initialised, an explicit import returns its cached result and
    leaves its state unchanged. *)
Lemma importedSymbol_cached (root : MemberSymbols.DesignRootSymbol) (ds : list Diag)
    (self : MemberSymbols.ExplicitImportSymbol) :
  let '(r, self', ds') := MemberSymbols.importedSymbol root ds self in
  MemberSymbols.initialized self' = true /\ ds' = ds /\
  MemberSymbols.importedSymbol root ds' self' = (r, self', ds').
Proof.
  unfold MemberSymbols.importedSymbol.
  destruct (MemberSymbols.initialized self) eqn:Hi; simpl; rewrite ?Hi; auto.
Qed.

(** C8: importing [x] from a package [P] the design does not have.  The
    first access resolves nothing and adds no diagnostic; later accesses
    return the cached absence. *)
Theorem importedSymbol_missing_package (ds : list Diag) :
  let root := MemberSymbols.mkRoot [] in
  let imp := MemberSymbols.newExplicitImport "P"%string "x"%string in
  let resolved := MemberSymbols.mkImport "P"%string "x"%string true None None in
  MemberSymbols.importedSymbol root ds imp = (None, resolved, ds) /\
  MemberSymbols.importedSymbol root ds resolved = (None, resolved, ds).
Proof. split; reflexivity. Qed.

(** ** Hierarchical values in constant expressions *)

Definition ctxAllowHier : EvalContext :=
  mkCtx (mkOptions MTM_Typ true 100) false [] [] 0.

(** C6 (counterexample): with [allowHierarchicalConst] set, verifying a
    hierarchical value still reports it and fails. *)
Lemma hierarchical_allowed_still_fails :
  allowHierarchicalConst (options ctxAllowHier) = true /\
  verifyConstant [] 1 (mkV ctxAllowHier []) (HierarchicalValueExpression "x"%string intType 3) =
    Some (false, mkV (addDiag ctxAllowHier ConstEvalHierarchicalNameInCE 3 [DStr "x"%string]) []).
Proof. split; reflexivity. Qed.

(** C6 (amended): whatever the options, verifying a hierarchical value
    adds the hierarchical-name diagnostic and fails, and evaluating it
    yields bad without touching the context. *)
Theorem hierarchical_never_constant (subroutines : list SubroutineSymbol)
    (evalBody : SubroutineSymbol -> EvalContext -> EvalResult * EvalContext)
    (fuel : nat) (st : VState) (name : string) (ty : Ty) (range : nat) :
  verifyConstant subroutines (S fuel) st (HierarchicalValueExpression name ty range) =
    Some (false, mkV (addDiag (vctx st) ConstEvalHierarchicalNameInCE range [DStr name])
                     (inRecursion st)) /\
  (forall ctx, eval subroutines evalBody ctx (HierarchicalValueExpression name ty range) =
               (CVBad, ctx)).
Proof. split; reflexivity. Qed.

(** ** Min/typ/max expressions *)

(** A binder for the counterexample: syntax node [0] fails to bind, any
    other node [n] binds to the [int] literal [n]. *)
Definition createSample (s : ExprSyntax) (_ : BindFlags) : Expr :=
  if Nat.eqb s 0 then InvalidExpression None else IntegerLiteral intType (Z.of_nat s).

Definition typOptions : CompilationOptions := mkOptions MTM_Typ false 100.

(** C5 (counterexample): with [Typ] selected, a [min] branch that fails to
    bind makes the whole expression bad: its type is the error type, not
    the selected branch's [int], and it evaluates to bad, not to 5. *)
Lemma minTypMax_bad_branch :
  let r := minTypMaxFromSyntax createSample typOptions 0 5 6 in
  exprType (createSample 5 BF_None) = intType /\
  exprType r = errorType /\
  eval [] (fun _ c => (Success, c)) ctxNoScript (createSample 5 BF_None) = (CVInt 5, ctxNoScript) /\
  eval [] (fun _ c => (Success, c)) ctxNoScript r = (CVBad, ctxNoScript).
Proof. repeat split; reflexivity. Qed.

(** C5 (amended): the three branches are bound, the two not selected by
    the [minTypMax] option as unevaluated branches; when none of them is
    bad, the result is the min/typ/max expression, its type is the selected
    branch's type and it evaluates as the selected branch does; when any
    branch is bad, the result is bad: it wraps the min/typ/max expression,
    has the error type and evaluates to bad. *)
Theorem minTypMaxFromSyntax_selected (create : ExprSyntax -> BindFlags -> Expr)
    (opts : CompilationOptions) (minSyntax typSyntax maxSyntax : ExprSyntax) :
  let min := create minSyntax (match minTypMax opts with MTM_Min => BF_None
                               | _ => BF_UnevaluatedBranch end) in
  let typ := create typSyntax (match minTypMax opts with MTM_Typ => BF_None
                               | _ => BF_UnevaluatedBranch end) in
  let max := create maxSyntax (match minTypMax opts with MTM_Max => BF_None
                               | _ => BF_UnevaluatedBranch end) in
  let selected := selectedOf min typ max (minTypMax opts) in
  let r := minTypMaxFromSyntax create opts minSyntax typSyntax maxSyntax in
  (bad min = false -> bad typ = false -> bad max = false ->
   r = MinTypMaxExpression (exprType selected) min typ max (minTypMax opts) /\
   exprType r = exprType selected /\
   (forall subroutines evalBody ctx,
      eval subroutines evalBody ctx r = eval subroutines evalBody ctx selected)) /\
  (bad min = true \/ bad typ = true \/ bad max = true ->
   r = badExpr (Some (MinTypMaxExpression (exprType selected) min typ max (minTypMax opts))) /\
   bad r = true /\ exprType r = errorType /\
   (forall subroutines evalBody ctx, eval subroutines evalBody ctx r = (CVBad, ctx))).
Proof.
  intros min typ max selected r. split.
  - intros Hmin Htyp Hmax.
    assert (Hr : r = MinTypMaxExpression (exprType selected) min typ max (minTypMax opts)).
    { unfold r, minTypMaxFromSyntax, selected, min, typ, max. cbv zeta.
      fold min typ max. rewrite Hmin, Htyp, Hmax. reflexivity. }
    split; [exact Hr|]. split; [rewrite Hr; reflexivity|].
    intros subroutines evalBody ctx. rewrite Hr. unfold selected.
    destruct (minTypMax opts); reflexivity.
  - intros Hbad.
    assert (Hr : r = badExpr (Some (MinTypMaxExpression (exprType selected) min typ max
                                      (minTypMax opts)))).
    { unfold r, minTypMaxFromSyntax, selected, min, typ, max. cbv zeta.
      fold min typ max.
      replace (bad min || bad typ || bad max) with true; [reflexivity |].
      destruct Hbad as [H | [H | H]]; rewrite H, ?orb_true_r; reflexivity. }
    rewrite Hr. split; [reflexivity | split; [reflexivity | split; [reflexivity |]]].
    intros; reflexivity.
Qed.

Lemma minTypMaxFromSyntax_selected_witness :
  exprType (minTypMaxFromSyntax createSample typOptions 4 5 6) = intType /\
  exprType (minTypMaxFromSyntax createSample typOptions 0 5 6) = errorType.
Proof.
  split.
  - destruct (proj1 (minTypMaxFromSyntax_selected createSample typOptions 4 5 6)
                eq_refl eq_refl eq_refl) as [_ [H _]].
    exact H.
  - destruct (proj2 (minTypMaxFromSyntax_selected createSample typOptions 0 5 6)
                (or_introl eq_refl)) as [_ [_ [H _]]].
    exact H.
Defined.

(** ** Call binding *)

(** C3: a call with one ordered argument to a subroutine with two formals
    and no defaults reports too few arguments, expected 2 and got 1, and
    the call expression is bad. *)
Theorem fromArgs_too_few
    (bindArgument : Ty -> ArgumentDirection -> ExprSyntax -> bool -> Expr)
    (ds : list Diag) (si : nat) (symbol : SubroutineSymbol) (callId : nat)
    (thisClass : option Expr) (loc : nat) (e : ExprSyntax) (range : nat)
    (a b : FormalArgumentSymbol)
    (Hformals : sub_arguments symbol = [a; b])
    (Ha : initializer a = None) (Hb : initializer b = None) :
  fromArgs bindArgument ds si symbol callId thisClass (Some [OrderedArgument loc e]) range =
    (badExpr (Some (CallExpression callId si thisClass [bindFormal bindArgument a e]
                      (returnType symbol) range)),
     ds ++ [bindDiag TooFewArguments range [DNat 2; DNat 1]]).
Proof.
  unfold fromArgs. simpl. rewrite Hformals. simpl. rewrite Hb. simpl.
  rewrite app_nil_r. reflexivity.
Qed.

Definition bindSample (t : Ty) (_ : ArgumentDirection) (e : ExprSyntax) (_ : bool) : Expr :=
  IntegerLiteral t (Z.of_nat e).

Definition formalA : FormalArgumentSymbol := mkFormal "a"%string intType ArgIn false None.
Definition formalB : FormalArgumentSymbol := mkFormal "b"%string intType ArgIn false None.

(** [function int f(int a, int b);] *)
Definition twoArgFunction : SubroutineSymbol :=
  mkSubroutine "f"%string SK_Function MF_None intType [formalA; formalB] CompilationUnit [].

Lemma fromArgs_too_few_witness :
  fromArgs bindSample [] 0 twoArgFunction 9 None (Some [OrderedArgument 1 1]) 0 =
    (badExpr (Some (CallExpression 9 0 None [IntegerLiteral intType 1] intType 0)),
     [bindDiag TooFewArguments 0 [DNat 2; DNat 1]]).
Proof.
  exact (fromArgs_too_few bindSample [] 0 twoArgFunction 9 None 1 1 0 formalA formalB
           eq_refl eq_refl eq_refl).
Defined.


Definition formalX : FormalArgumentSymbol := mkFormal "x"%string intType ArgIn false None.

(** [function int g(int x);] *)
Definition oneArgFunction : SubroutineSymbol :=
  mkSubroutine "g"%string SK_Function MF_None intType [formalX] CompilationUnit [].


Lemma collectArgs_diags_grow (args : list ArgumentSyntax) :
  forall o n ds, exists more, snd (collectArgs args o n ds) = ds ++ more.
Proof.
  induction args as [| a rest IH]; intros o n ds; simpl.
  - exists []. rewrite app_nil_r. reflexivity.
  - destruct a as [l e | l name e | l].
    + destruct n as [| kv n'].
      * apply IH.
      * eexists. reflexivity.
    + destruct (String.eqb name EmptyString); [apply IH|].
      destruct (findNamed name n).
      * destruct (IH o n (ds ++ [bindDiag DuplicateArgAssignment l [DStr name]])) as [m Hm].
        rewrite Hm, <- app_assoc. eexists. reflexivity.
      * apply IH.
    + destruct n as [| kv n'].
      * apply IH.
      * eexists. reflexivity.
Qed.







(** ** Constant evaluation of a call *)

Lemma createLocal_frame_names c k v :
  map frameSub (frames (createLocal c k v)) = map frameSub (frames c).
Proof. unfold createLocal. destruct (frames c) as [| f fs] eqn:Hf; simpl; rewrite ?Hf; reflexivity. Qed.

Lemma fold_createLocal_frame_names (l : list (FormalArgumentSymbol * ConstantValue)) :
  forall c, map frameSub (frames (fold_left (fun c fa => createLocal c (LFormal (formalName (fst fa))) (snd fa)) l c)) =
            map frameSub (frames c).
Proof.
  induction l as [| fa l IH]; intros c; simpl; [reflexivity|].
  rewrite IH. apply createLocal_frame_names.
Qed.

Lemma map_tl_comm {A B} (f : A -> B) (l : list A) : map f (tl l) = tl (map f l).
Proof. destruct l; reflexivity. Qed.

Lemma setupCallFrame_frames ctx symbol vals range ctx' :
  setupCallFrame ctx symbol vals range = (true, ctx') ->
  map frameSub (frames ctx') = sub_name symbol :: map frameSub (frames ctx).
Proof.
  unfold setupCallFrame, pushFrame.
  destruct (Nat.leb (maxRecursionDepth (options ctx)) (List.length (frames ctx))); simpl;
    [discriminate|].
  intros H. injection H as <-.
  rewrite createLocal_frame_names, fold_createLocal_frame_names. reflexivity.
Qed.

(** C2: once the body of a constant function call has run with result
    [er], a [Disable] result is reported with the callee's frame still on
    the reported stack, the frame is then popped, and the call yields bad
    for [Fail] or [Disable] and the return-value local for [Success] or
    [Return]. *)
Theorem eval_call_body_result (subroutines : list SubroutineSymbol)
    (evalBody : SubroutineSymbol -> EvalContext -> EvalResult * EvalContext)
    (HevalBody : forall s c er c', evalBody s c = (er, c') ->
                 map frameSub (frames c') = map frameSub (frames c))
    (ctx : EvalContext) (callId si : nat) (args : list Expr) (ty : Ty) (range : nat)
    (symbol : SubroutineSymbol) (ctx1 ctx2 ctx3 ctx4 : EvalContext)
    (vals : list ConstantValue) (er : EvalResult)
    (Hsym : nth_error subroutines si = Some symbol)
    (Hcheck : checkConstant ctx symbol range = (true, ctx1))
    (Hargs : evalArgsWith (eval subroutines evalBody) ctx1 args = (Some vals, ctx2))
    (Hframe : setupCallFrame ctx2 symbol vals range = (true, ctx3))
    (Hbody : evalBody symbol ctx3 = (er, ctx4)) :
  let r := eval subroutines evalBody ctx (CallExpression callId si None args ty range) in
  (er = Disable ->
     diags (snd r) = diags ctx4 ++
       [mkDiag ConstEvalDisableTarget (disableRange ctx4) []
          (sub_name symbol :: map frameSub (frames ctx2))]) /\
  map frameSub (frames (snd r)) = map frameSub (frames ctx2) /\
  (er = Fail \/ er = Disable -> fst r = CVBad) /\
  (er = Success \/ er = Return ->
     forall v, findLocal ctx4 LReturnVal = Some v -> fst r = v).
Proof.
  cbv zeta. simpl eval. rewrite Hsym, Hcheck. simpl. rewrite Hargs, Hframe. simpl.
  rewrite Hbody.
  pose proof (HevalBody _ _ _ _ Hbody) as Hnames.
  rewrite (setupCallFrame_frames _ _ _ _ _ Hframe) in Hnames.
  unfold finishCall, popFrame, setFrames, addDiag.
  destruct er; simpl; repeat split; intros;
    repeat match goal with H : _ \/ _ |- _ => destruct H end;
    try discriminate;
    first [ rewrite Hnames; reflexivity
          | rewrite map_tl_comm, Hnames; reflexivity
          | match goal with H : findLocal _ _ = Some _ |- _ => rewrite H; reflexivity end
          | reflexivity ].
Qed.

(** [function int f(int a);] with an empty body. *)
Definition oneArgF : SubroutineSymbol :=
  mkSubroutine "f"%string SK_Function MF_None intType [formalA] CompilationUnit [].

(** A body whose evaluation ends with a stray [disable]. *)
Definition disablingBody (_ : SubroutineSymbol) (c : EvalContext) : EvalResult * EvalContext :=
  (Disable, c).

Lemma eval_call_body_result_witness :
  fst (eval [oneArgF] disablingBody ctxNoScript
         (CallExpression 1 0 None [IntegerLiteral intType 3] intType 7)) = CVBad.
Proof.
  assert (Hbody : forall s c er c', disablingBody s c = (er, c') ->
                  map frameSub (frames c') = map frameSub (frames c)).
  { intros s c er c' H. injection H as _ <-. reflexivity. }
  refine ((proj1 (proj2 (proj2 (eval_call_body_result [oneArgF] disablingBody Hbody
            ctxNoScript 1 0 [IntegerLiteral intType 3] intType 7 oneArgF
            _ _ _ _ _ Disable eq_refl eq_refl eq_refl eq_refl eq_refl)))) _).
  right. reflexivity.
Defined.

(** ** Termination of constant verification *)

Lemma extendsCtx_refl c : extendsCtx c c.
Proof.
  repeat split; try reflexivity. exists []. split; [symmetry; apply app_nil_r | reflexivity].
Qed.


Lemma addDiag_extends c code range args :
  isDepthDiag (mkDiag code range args (map frameSub (frames c))) = false ->
  extendsCtx c (addDiag c code range args).
Proof.
  intros H. repeat split.
  exists [mkDiag code range args (map frameSub (frames c))].
  split; [reflexivity | simpl; rewrite H; reflexivity].
Qed.

Lemma checkConstant_extends c s r ok c' :
  checkConstant c s r = (ok, c') -> extendsCtx c c'.
Proof.
  unfold checkConstant.
  destruct (scriptEval c); [intros H; injection H as _ <-; apply extendsCtx_refl |].
  destruct (subroutineKind s);
  [ | intros H; injection H as _ <-; apply addDiag_extends; reflexivity].
  repeat match goal with
  | |- context [if ?b then _ else _] => destruct b
  end;
  intros H; injection H as _ <-;
  first [apply addDiag_extends; reflexivity | apply extendsCtx_refl].
Qed.




Lemma remove_cons_notin c R :
  existsb (Nat.eqb c) R = false -> remove Nat.eq_dec c (c :: R) = R.
Proof.
  intros HR. simpl. destruct (Nat.eq_dec c c) as [_ | []]; [| reflexivity].
  apply notin_remove. intros Hin.
  assert (existsb (Nat.eqb c) R = true) as Ht
    by (apply existsb_exists; exists c; split; [exact Hin | apply Nat.eqb_refl]).
  congruence.
Qed.

Lemma height_in_list a l : In a l -> height a <= list_max (map height l).
Proof.
  intros H. pose proof (proj1 (list_max_le (map height l) (list_max (map height l))) (le_n _)) as HF.
  rewrite Forall_forall in HF. apply HF, in_map, H.
Qed.







(** A constant function that calls itself: [function int r(int a); return r(1); endfunction]. *)
Definition recursiveF : SubroutineSymbol :=
  mkSubroutine "r"%string SK_Function MF_None intType [formalA] CompilationUnit
    [CallExpression 1 0 None [IntegerLiteral intType 1] intType 9].

Definition recursiveCall : Expr :=
  CallExpression 0 0 None [IntegerLiteral intType 3] intType 7.


(* ========================================================================= *)
(** * Further properties of the call, value and member code *)

Ltac dmatch :=
  match goal with
  | |- context [match ?x with _ => _ end] =>
      lazymatch x with
      | context [match _ with _ => _ end] => fail
      | _ => destruct x eqn:?
      end
  end.




Definition orderedArgsOf (les : list (nat * ExprSyntax)) : list ArgumentSyntax :=
  map (fun le => OrderedArgument (fst le) (snd le)) les.

Lemma bindFormals_ordered bindArgument fs n pre les rest range st :
  namedState st = [] -> orderedIndex st = List.length pre -> List.length les = List.length fs ->
  bindFormals bindArgument fs n (pre ++ orderedArgsOf les ++ rest) range st =
  mkBS (List.length pre + List.length fs) []
    (isBad st || existsb bad (map (fun p => bindFormal bindArgument (fst p) (snd (snd p))) (combine fs les)))
    (boundArgs st ++ map (fun p => bindFormal bindArgument (fst p) (snd (snd p))) (combine fs les))
    (bdiags st).
Proof.
  revert pre les st. induction fs as [| f fs IH]; intros pre les st Hn Hi Hl.
  - destruct les; [| discriminate]. destruct st as [i nm b bd d]. simpl in *. subst.
    rewrite orb_false_r, app_nil_r, Nat.add_0_r. reflexivity.
  - destruct les as [| [l e] les]; [discriminate |]. simpl in Hl.
    destruct st as [i nm b bd d]. simpl in Hn, Hi. subst.
    cbn [bindFormals orderedArgsOf map orderedIndex namedState isBad boundArgs bdiags].
    assert (Hlt : Nat.ltb (List.length pre)
                    (List.length (pre ++ (OrderedArgument l e :: orderedArgsOf les) ++ rest)) = true).
    { apply Nat.ltb_lt. rewrite !length_app. simpl. lia. }
    change (map (fun le => OrderedArgument (fst le) (snd le)) les) with (orderedArgsOf les).
    cbn [fst snd]. rewrite Hlt.
    rewrite app_nth2 by lia. rewrite Nat.sub_diag. cbn [nth app].
    cbn [findNamed find].
    replace (pre ++ OrderedArgument l e :: orderedArgsOf les ++ rest)
      with ((pre ++ [OrderedArgument l e]) ++ orderedArgsOf les ++ rest)
      by (rewrite <- app_assoc; reflexivity).
    rewrite IH by (simpl; try rewrite length_app; simpl; first [reflexivity | lia]).
    rewrite length_app. simpl.
    f_equal; [lia | | ].
    + rewrite orb_assoc. reflexivity.
    + rewrite <- app_assoc. reflexivity.
Qed.

Lemma collectArgs_ordered les ord ds :
  collectArgs (orderedArgsOf les) ord [] ds = (Some (ord ++ orderedArgsOf les, []), ds).
Proof.
  revert ord. induction les as [| [l e] les IH]; intros ord; simpl.
  - rewrite app_nil_r. reflexivity.
  - rewrite IH, <- app_assoc. reflexivity.
Qed.

(** X2: A call with only ordered arguments, as many as the subroutine has formals, binds the i-th argument to the i-th formal, and the call binding itself issues no diagnostic (argument expressions may report their own); the call is bad only if one of the bound arguments is bad. *)
Theorem fromArgs_ordered_exact bindArgument ds si symbol callId thisClass les range :
  List.length les = List.length (sub_arguments symbol) ->
  fromArgs bindArgument ds si symbol callId thisClass (Some (orderedArgsOf les)) range =
  (let bound := map (fun p => bindFormal bindArgument (fst p) (snd (snd p)))
                  (combine (sub_arguments symbol) les) in
   let r := CallExpression callId si thisClass bound (returnType symbol) range in
   if existsb bad bound then badExpr (Some r) else r, ds).
Proof.
  intros Hl. unfold fromArgs. rewrite collectArgs_ordered. cbn [app].
  pose proof (bindFormals_ordered bindArgument (sub_arguments symbol)
                (List.length (sub_arguments symbol)) [] les [] range
                (mkBS 0 [] false [] ds) eq_refl eq_refl Hl) as Hb.
  rewrite app_nil_r in Hb. cbn [app] in Hb. rewrite Hb. cbn -[combine Nat.ltb].
  unfold orderedArgsOf. rewrite length_map, Hl, Nat.ltb_irrefl. cbn -[combine Nat.ltb].
  rewrite orb_false_r, app_nil_r. destruct (existsb _ _); reflexivity.
Qed.

(** X3: A call with more ordered arguments than formals is a bad call over the first arguments bound to the formals, with exactly one TooManyArguments diagnostic carrying the formal and argument counts. *)
Theorem fromArgs_too_many bindArgument ds si symbol callId thisClass les range :
  List.length (sub_arguments symbol) < List.length les ->
  fromArgs bindArgument ds si symbol callId thisClass (Some (orderedArgsOf les)) range =
  (badExpr (Some (CallExpression callId si thisClass
     (map (fun p => bindFormal bindArgument (fst p) (snd (snd p)))
        (combine (sub_arguments symbol) les)) (returnType symbol) range)),
   ds ++ [bindDiag TooManyArguments range
            [DNat (List.length (sub_arguments symbol)); DNat (List.length les)]]).
Proof.
  intros Hl. unfold fromArgs. rewrite collectArgs_ordered. cbn [app].
  set (n := List.length (sub_arguments symbol)).
  assert (Hsplit : orderedArgsOf les = orderedArgsOf (firstn n les) ++ orderedArgsOf (skipn n les))
    by (unfold orderedArgsOf; rewrite <- map_app, firstn_skipn; reflexivity).
  assert (Hfl : List.length (firstn n les) = n) by (rewrite length_firstn; lia).
  pose proof (bindFormals_ordered bindArgument (sub_arguments symbol) n [] (firstn n les)
                (orderedArgsOf (skipn n les)) range (mkBS 0 [] false [] ds) eq_refl eq_refl Hfl) as Hb.
  cbn [app] in Hb. rewrite Hsplit, Hb. cbn -[combine Nat.ltb].
  assert (Hlt : Nat.ltb n (List.length (orderedArgsOf (firstn n les) ++ orderedArgsOf (skipn n les))) = true).
  { apply Nat.ltb_lt. rewrite <- Hsplit. unfold orderedArgsOf. rewrite length_map. lia. }
  change (List.length (sub_arguments symbol)) with n. rewrite Hlt. cbn -[combine Nat.ltb].
  assert (Hc : combine (sub_arguments symbol) (firstn n les) = combine (sub_arguments symbol) les).
  { unfold n. clear. revert les. induction (sub_arguments symbol) as [| f fs IH]; intros les;
    [reflexivity |]. destruct les; [reflexivity |]. simpl. f_equal. apply IH. }
  rewrite Hc, <- Hsplit. unfold orderedArgsOf. rewrite length_map, app_nil_r. reflexivity.
Qed.

Lemma bindFormals_defaults bindArgument fs inits n range st :
  namedState st = [] -> orderedIndex st = 0 -> map initializer fs = map Some inits ->
  bindFormals bindArgument fs n [] range st =
  mkBS 0 [] (isBad st || existsb bad inits) (boundArgs st ++ inits) (bdiags st).
Proof.
  revert inits st. induction fs as [| f fs IH]; intros inits st Hn Hi Hm.
  - destruct inits; [| discriminate]. destruct st; simpl in *; subst.
    rewrite orb_false_r, app_nil_r. reflexivity.
  - destruct inits as [| i inits]; [discriminate |]. injection Hm as Hf Hm.
    destruct st as [idx nm b bd d]. simpl in Hn, Hi. subst.
    cbn [bindFormals orderedIndex namedState isBad boundArgs bdiags List.length Nat.ltb].
    cbn [findNamed find]. rewrite Hf.
    cbn. rewrite (IH inits) by (reflexivity || assumption). simpl.
    rewrite orb_assoc, <- app_assoc. reflexivity.
Qed.

(** X4: A call with no argument list, or an empty one, to a subroutine whose formals all have default initializers, binds the defaults in order and adds no diagnostic. *)
Theorem fromArgs_defaults bindArgument ds si symbol callId thisClass argSyntax range inits :
  argSyntax = None \/ argSyntax = Some [] ->
  map initializer (sub_arguments symbol) = map Some inits ->
  fromArgs bindArgument ds si symbol callId thisClass argSyntax range =
  (let r := CallExpression callId si thisClass inits (returnType symbol) range in
   if existsb bad inits then badExpr (Some r) else r, ds).
Proof.
  intros Hargs Hm. unfold fromArgs.
  replace (match argSyntax with Some l => l | None => [] end) with (@nil ArgumentSyntax)
    by (destruct Hargs as [-> | ->]; reflexivity).
  cbn [collectArgs].
  rewrite (bindFormals_defaults bindArgument _ inits _ range (mkBS 0 [] false [] ds) eq_refl eq_refl Hm).
  cbn. rewrite app_nil_r. destruct (existsb bad inits); reflexivity.
Qed.

Definition isNamedArg (a : ArgumentSyntax) : bool :=
  match a with NamedArgument _ _ _ => true | _ => false end.

Lemma findNamed_In n m v : findNamed n m = Some v -> In (n, v) m.
Proof.
  unfold findNamed. destruct (find _ m) as [[k v'] |] eqn:Hf; [| discriminate].
  intros H; injection H as <-. apply find_some in Hf as [Hin Heq].
  simpl in Heq. apply String.eqb_eq in Heq. subst. exact Hin.
Qed.

Lemma collectArgs_named_entries args ord named ds o m ds' :
  collectArgs args ord named ds = (Some (o, m), ds') ->
  (forall kv, In kv named -> In kv m) /\
  (forall l n eo, In (NamedArgument l n eo) args -> n <> EmptyString -> exists v, In (n, v) m) /\
  (Forall (fun kv => snd (snd kv) = false) named -> Forall (fun kv => snd (snd kv) = false) m).
Proof.
  revert ord named ds. induction args as [| a args IH]; intros ord named ds H; simpl in H.
  - injection H as _ <- _. split; [auto |]. split; [intros l n eo [] | auto].
  - destruct a as [l e | l nm eo | l].
    + destruct named; [| discriminate].
      destruct (IH _ _ _ H) as (H1 & H2 & H3). split; [auto |]. split; [| auto].
      intros l' n eo [Hc | Hin] Hn; [discriminate | eauto].
    + destruct (String.eqb_spec nm EmptyString) as [Hemp | Hne].
      * destruct (IH _ _ _ H) as (H1 & H2 & H3). split; [auto |]. split; [| auto].
        intros l' n eo' [Hc | Hin] Hn; [injection Hc as _ <- _; contradiction | eauto].
      * destruct (findNamed nm named) as [v |] eqn:Hf.
        -- destruct (IH _ _ _ H) as (H1 & H2 & H3). split; [auto |]. split; [| auto].
           intros l' n eo' [Hc | Hin] Hn; [| eauto].
           injection Hc as _ <- _. exists v. apply H1. apply findNamed_In. exact Hf.
        -- destruct (IH _ _ _ H) as (H1 & H2 & H3).
           split; [intros kv Hkv; apply H1; apply in_or_app; left; exact Hkv |].
           split.
           ++ intros l' n eo' [Hc | Hin] Hn; [| eauto].
              injection Hc as _ <- _. eexists. apply H1. apply in_or_app. right. left. reflexivity.
           ++ intros Hall. apply H3. apply Forall_app. split; [exact Hall |]. constructor; [reflexivity | constructor].
    + destruct named; [| discriminate].
      destruct (IH _ _ _ H) as (H1 & H2 & H3). split; [auto |]. split; [| auto].
      intros l' n eo [Hc | Hin] Hn; [discriminate | eauto].
Qed.

Lemma markUsed_keep n fn v m :
  n <> fn -> In (n, v) m -> In (n, v) (markUsed fn m).
Proof.
  intros Hne Hin. unfold markUsed. apply in_map_iff. exists (n, v). split; [| exact Hin].
  simpl. destruct (String.eqb_spec n fn); [contradiction | reflexivity].
Qed.

Lemma bindFormals_keeps_unused bindArgument fs num ord range st n a :
  In (n, (a, false)) (namedState st) -> ~ In n (map formalName fs) ->
  In (n, (a, false)) (namedState (bindFormals bindArgument fs num ord range st)).
Proof.
  revert st. induction fs as [| f fs IH]; intros st Hin Hnot; [exact Hin |].
  simpl in Hnot. assert (Hne : n <> formalName f) by (intros Heq; apply Hnot; left; symmetry; exact Heq).
  assert (Hnot' : ~ In n (map formalName fs)) by tauto.
  cbn [bindFormals].
  repeat (dmatch; cbn -[findNamed markUsed nth] in *);
  try (apply IH; [cbn; auto using markUsed_keep | exact Hnot']);
  cbn; auto using markUsed_keep.
Qed.

Lemma collectArgs_positional_prefix pos rest o ds :
  Forall (fun a => isNamedArg a = false) pos ->
  collectArgs (pos ++ rest) o [] ds = collectArgs rest (o ++ pos) [] ds.
Proof.
  revert o. induction pos as [| a pos IH]; intros o Hall; simpl.
  - rewrite app_nil_r. reflexivity.
  - inversion Hall as [| ? ? Ha Hall']; subst.
    destruct a as [l e | l nm eo | l]; [| discriminate |];
      rewrite IH by exact Hall'; rewrite <- app_assoc; reflexivity.
Qed.

Lemma collectArgs_named_only l o m ds :
  Forall (fun a => isNamedArg a = true) l -> fst (collectArgs l o m ds) <> None.
Proof.
  revert m ds. induction l as [| a l IH]; intros m ds Hall; simpl; [discriminate |].
  inversion Hall as [| ? ? Ha Hall']; subst.
  destruct a as [| loc nm eo |]; try discriminate.
  destruct (String.eqb nm EmptyString); [auto |].
  destruct (findNamed nm m); auto.
Qed.

(** X5: When positional arguments are followed by named ones and some non-empty name is not a formal of the subroutine, the call is bad and an ArgDoesNotExist diagnostic names the argument and the subroutine. *)
Theorem fromArgs_unknown_named bindArgument ds si symbol callId thisClass pos named range
    loc n eo :
  Forall (fun a => isNamedArg a = false) pos ->
  Forall (fun a => isNamedArg a = true) named ->
  In (NamedArgument loc n eo) named -> n <> EmptyString ->
  ~ In n (map formalName (sub_arguments symbol)) ->
  let r := fromArgs bindArgument ds si symbol callId thisClass (Some (pos ++ named)) range in
  bad (fst r) = true /\
  exists loc', In (bindDiag ArgDoesNotExist loc' [DStr n; DStr (sub_name symbol)]) (snd r).
Proof.
  intros Hpos Hnamed Hin Hne Hnot r. unfold r, fromArgs.
  rewrite collectArgs_positional_prefix by exact Hpos. cbn [app].
  pose proof (collectArgs_named_only named pos [] ds Hnamed) as Hok.
  destruct (collectArgs named pos [] ds) as [[[o m] |] ds1] eqn:Hc; [| contradiction].
  destruct (collectArgs_named_entries _ _ _ _ _ _ _ Hc) as (_ & H2 & H3).
  destruct (H2 _ _ _ Hin Hne) as [[a u] Hm].
  assert (Hu : u = false).
  { specialize (H3 (Forall_nil _)). rewrite Forall_forall in H3. exact (H3 _ Hm). }
  subst u.
  set (st := bindFormals bindArgument _ _ o range _).
  assert (Hkeep : In (n, (a, false)) (namedState st))
    by (apply bindFormals_keeps_unused; [exact Hm | exact Hnot]).
  assert (Hf : In (n, (a, false)) (filter (fun kv => negb (snd (snd kv))) (namedState st)))
    by (apply filter_In; split; [exact Hkeep | reflexivity]).
  apply (in_map (fun kv => bindDiag ArgDoesNotExist (argLoc (fst (snd kv)))
                             [DStr (fst kv); DStr (sub_name symbol)])) in Hf.
  destruct (filter (fun kv => negb (snd (snd kv))) (namedState st)) as [| kv0 unused] eqn:Hfl;
    [contradiction |].
  cbn [map] in Hf.
  destruct (Nat.ltb (orderedIndex st) (List.length o)); cbn -[bindFormals];
    try rewrite orb_true_r; cbn -[bindFormals]; (split; [reflexivity |]);
    exists (argLoc a); apply in_or_app; right; exact Hf.
Qed.


Lemma bindFormals_frame bindArgument fs n o r i m b ba d e :
  bindFormals bindArgument fs n o r (mkBS i m b ba (d ++ e)) =
  let s := bindFormals bindArgument fs n o r (mkBS i m b ba e) in
  mkBS (orderedIndex s) (namedState s) (isBad s) (boundArgs s) (d ++ bdiags s).
Proof.
  revert i m b ba e. induction fs as [| f fs IH]; intros i m b ba e; [reflexivity |].
  cbn [bindFormals].
  repeat (dmatch; cbn -[findNamed markUsed nth bindFormals] in *); try reflexivity; try discriminate;
    repeat rewrite <- app_assoc; first [reflexivity | apply IH].
Qed.


Lemma collectArgs_app a b o m ds :
  collectArgs (a ++ b) o m ds =
  match collectArgs a o m ds with
  | (Some (o', m'), ds') => collectArgs b o' m' ds'
  | (None, ds') => (None, ds')
  end.
Proof.
  revert o m ds. induction a as [| x a IH]; intros o m ds; [reflexivity |].
  simpl. destruct x as [l e | l nm eo | l].
  - destruct m; [apply IH | reflexivity].
  - destruct (String.eqb nm EmptyString); [apply IH |].
    destruct (findNamed nm m); apply IH.
  - destruct m; [apply IH | reflexivity].
Qed.

Lemma findNamed_of_In n v m : In (n, v) m -> exists v', findNamed n m = Some v'.
Proof.
  intros Hin. unfold findNamed.
  destruct (find (fun kv => String.eqb (fst kv) n) m) as [[k v'] |] eqn:Hf; [eauto |].
  exfalso. apply (find_none _ _ Hf) in Hin. simpl in Hin.
  rewrite String.eqb_refl in Hin. discriminate.
Qed.

Lemma bindFormals_frame0 bindArgument fs n o r i m b ba d :
  bindFormals bindArgument fs n o r (mkBS i m b ba d) =
  let s := bindFormals bindArgument fs n o r (mkBS i m b ba []) in
  mkBS (orderedIndex s) (namedState s) (isBad s) (boundArgs s) (d ++ bdiags s).
Proof.
  rewrite <- (app_nil_r d) at 1. apply bindFormals_frame.
Qed.

(** X6: Repeating a named argument at the end of a call leaves the bound call unchanged and adds exactly one DuplicateArgAssignment diagnostic for the repeated name. *)
Theorem fromArgs_duplicate_named bindArgument ds si symbol callId thisClass pos named range
    loc0 n eo0 l eo :
  Forall (fun a => isNamedArg a = false) pos ->
  Forall (fun a => isNamedArg a = true) named ->
  In (NamedArgument loc0 n eo0) named -> n <> EmptyString ->
  let r1 := fromArgs bindArgument ds si symbol callId thisClass (Some (pos ++ named)) range in
  let r2 := fromArgs bindArgument ds si symbol callId thisClass
              (Some (pos ++ named ++ [NamedArgument l n eo])) range in
  fst r2 = fst r1 /\
  exists pre post, snd r1 = pre ++ post /\
    snd r2 = pre ++ bindDiag DuplicateArgAssignment l [DStr n] :: post.
Proof.
  intros Hpos Hnamed Hin Hne r1 r2. unfold r1, r2, fromArgs.
  rewrite (collectArgs_positional_prefix pos named), (collectArgs_positional_prefix pos (named ++ _))
    by exact Hpos. cbn [app].
  rewrite collectArgs_app.
  pose proof (collectArgs_named_only named pos [] ds Hnamed) as Hok.
  destruct (collectArgs named pos [] ds) as [[[o m] |] ds1] eqn:Hc; [| contradiction].
  destruct (collectArgs_named_entries _ _ _ _ _ _ _ Hc) as (_ & H2 & _).
  destruct (H2 _ _ _ Hin Hne) as [v Hm].
  destruct (findNamed_of_In _ _ _ Hm) as [v' Hf].
  cbn [collectArgs]. apply String.eqb_neq in Hne. rewrite Hne, Hf.
  rewrite (bindFormals_frame0 _ _ _ _ _ _ _ _ _ (ds1 ++ _)), (bindFormals_frame0 _ _ _ _ _ _ _ _ _ ds1).
  cbn -[bindFormals Nat.ltb].
  set (s := bindFormals _ _ _ _ _ _).
  destruct (Nat.ltb (orderedIndex s) (List.length o)); cbn -[bindFormals Nat.ltb];
    try match goal with |- context [if ?c then _ else _] => destruct c end;
    cbn; (split; [reflexivity |]); exists ds1; eexists;
    (split; [rewrite <- ?app_assoc; reflexivity |]); rewrite <- ?app_assoc; reflexivity.
Qed.

Lemma bindFormals_isBad_mono bindArgument fs n o r st :
  isBad st = true -> isBad (bindFormals bindArgument fs n o r st) = true.
Proof.
  revert st. induction fs as [| f fs IH]; intros st H; [exact H |].
  destruct st as [i m b ba d]. cbn in H. subst b.
  cbn [bindFormals].
  repeat (dmatch; cbn -[findNamed markUsed nth bindFormals] in *); try reflexivity;
    try discriminate; apply IH; reflexivity.
Qed.

(** X7: When the first formal is given both positionally and by name, the call is bad and a DuplicateArgAssignment diagnostic names that formal. *)
Theorem fromArgs_positional_and_named bindArgument ds si symbol callId thisClass pos named range
    f fs loc n eo :
  sub_arguments symbol = f :: fs -> formalName f = n -> n <> EmptyString ->
  pos <> [] ->
  Forall (fun a => isNamedArg a = false) pos ->
  Forall (fun a => isNamedArg a = true) named ->
  In (NamedArgument loc n eo) named ->
  let r := fromArgs bindArgument ds si symbol callId thisClass (Some (pos ++ named)) range in
  bad (fst r) = true /\
  exists loc', In (bindDiag DuplicateArgAssignment loc' [DStr n]) (snd r).
Proof.
  intros Hs Hf Hne Hp Hpos Hnamed Hin r. unfold r, fromArgs.
  rewrite collectArgs_positional_prefix by exact Hpos. cbn [app].
  pose proof (collectArgs_named_only named pos [] ds Hnamed) as Hok.
  destruct (collectArgs named pos [] ds) as [[[o m] |] ds1] eqn:Hc; [| contradiction].
  assert (Ho : o = pos).
  { clear -Hc Hnamed. revert Hc. generalize (@nil (string * (ArgumentSyntax * bool))) ds.
    induction named as [| a named IH]; intros m0 d Hc; simpl in Hc.
    - injection Hc as <- _ _. reflexivity.
    - inversion Hnamed as [| ? ? Ha Hn']; subst. destruct a; try discriminate.
      destruct (String.eqb _ _); [| destruct (findNamed _ _)]; eapply IH; eauto. }
  subst o.
  destruct (collectArgs_named_entries _ _ _ _ _ _ _ Hc) as (_ & H2 & _).
  destruct (H2 _ _ _ Hin Hne) as [v Hm].
  destruct (findNamed_of_In _ _ _ Hm) as [[nas u] Hfn].
  rewrite Hs. cbn [bindFormals orderedIndex namedState isBad bdiags boundArgs].
  destruct pos as [| a0 pos']; [contradiction |].
  assert (Hlt : Nat.ltb 0 (List.length (a0 :: pos')) = true) by reflexivity.
  rewrite Hlt. cbn [nth]. rewrite Hf, Hfn.
  set (x := match a0 with OrderedArgument _ e => _ | _ => _ end).
  destruct x as [ex ds0] eqn:Hx.
  assert (Hds0 : exists t, ds0 = ds1 ++ t).
  { unfold x in Hx. destruct a0; try destruct (initializer f);
    injection Hx as _ <-; first [exists []; symmetry; apply app_nil_r | eexists; reflexivity]. }
  destruct Hds0 as [t ->].
  set (st1 := match ex with None => _ | Some _ => _ end).
  assert (Hb1 : isBad st1 = true) by (unfold st1; destruct ex; reflexivity).
  assert (Hd1 : In (bindDiag DuplicateArgAssignment (argLoc nas) [DStr n]) (bdiags st1))
    by (unfold st1; destruct ex; cbn; subst n; apply in_or_app; right; left; reflexivity).
  pose proof (bindFormals_isBad_mono bindArgument fs (S (List.length fs)) (a0 :: pos') range st1 Hb1)
    as Hbad.
  destruct st1 as [i1 m1 b1 ba1 d1] eqn:Hst1.
  rewrite bindFormals_frame0 in Hbad |- *. cbn -[bindFormals Nat.ltb] in Hbad |- *.
  set (s := bindFormals _ _ _ _ _ _) in Hbad |- *.
  cbn in Hd1.
  destruct (Nat.ltb (orderedIndex s) _); cbn -[bindFormals Nat.ltb];
    try rewrite Hbad; cbn;
    (split; [reflexivity |]); exists (argLoc nas);
    repeat (apply in_or_app; left); exact Hd1.
Qed.

(** The caller-visible part of an evaluation context is unchanged, up to
    more diagnostics. *)
Definition keepsCaller (c c' : EvalContext) : Prop :=
  options c' = options c /\ frames c' = frames c /\ exists ds, diags c' = diags c ++ ds.

Lemma keepsCaller_refl c : keepsCaller c c.
Proof. repeat split. exists []. symmetry. apply app_nil_r. Qed.

Lemma keepsCaller_trans a b c : keepsCaller a b -> keepsCaller b c -> keepsCaller a c.
Proof.
  intros (Ho1 & Hf1 & ds1 & Hd1) (Ho2 & Hf2 & ds2 & Hd2).
  repeat split; try congruence. exists (ds1 ++ ds2). rewrite Hd2, Hd1, app_assoc. reflexivity.
Qed.

Lemma extendsCtx_keepsCaller c c' : extendsCtx c c' -> keepsCaller c c'.
Proof. intros (Ho & _ & Hf & _ & ds & Hd & _). repeat split; eauto. Qed.

Lemma addDiag_keepsCaller c code range args : keepsCaller c (addDiag c code range args).
Proof. repeat split. eexists. reflexivity. Qed.

Lemma createLocal_shape c k v :
  options (createLocal c k v) = options c /\ diags (createLocal c k v) = diags c /\
  tl (frames (createLocal c k v)) = tl (frames c).
Proof. unfold createLocal. destruct (frames c) eqn:E; simpl; rewrite ?E; auto. Qed.

Lemma fold_createLocal_shape (l : list (FormalArgumentSymbol * ConstantValue)) : forall c,
  let c' := fold_left (fun c fa => createLocal c (LFormal (formalName (fst fa))) (snd fa)) l c in
  options c' = options c /\ diags c' = diags c /\ tl (frames c') = tl (frames c).
Proof.
  induction l as [| fa l IH]; intros c; simpl; [auto |].
  destruct (IH (createLocal c (LFormal (formalName (fst fa))) (snd fa))) as (H1 & H2 & H3).
  destruct (createLocal_shape c (LFormal (formalName (fst fa))) (snd fa)) as (H4 & H5 & H6).
  repeat split; congruence.
Qed.

Lemma setupCallFrame_shape ctx symbol vals range ok ctx' :
  setupCallFrame ctx symbol vals range = (ok, ctx') ->
  options ctx' = options ctx /\ (exists ds, diags ctx' = diags ctx ++ ds) /\
  (if ok then tl (frames ctx') = frames ctx else frames ctx' = frames ctx).
Proof.
  unfold setupCallFrame, pushFrame.
  destruct (Nat.leb _ _); simpl; intros H; injection H as <- <-.
  - repeat split; [eexists; reflexivity].
  - destruct (createLocal_shape
      (fold_left (fun c fa => createLocal c (LFormal (formalName (fst fa))) (snd fa))
         (combine (sub_arguments symbol) vals)
         (setFrames ctx (mkFrame (sub_name symbol) range [] :: frames ctx)))
      LReturnVal (defaultValue (returnType symbol))) as (H1 & H2 & H3).
    destruct (fold_createLocal_shape (combine (sub_arguments symbol) vals)
      (setFrames ctx (mkFrame (sub_name symbol) range [] :: frames ctx))) as (H4 & H5 & H6).
    simpl in *. repeat split; [congruence | exists []; rewrite app_nil_r; congruence | congruence].
Qed.

Lemma evalArgsWith_keeps (ev : EvalContext -> Expr -> ConstantValue * EvalContext) l :
  (forall a c, In a l -> keepsCaller c (snd (ev c a))) ->
  forall c, keepsCaller c (snd (evalArgsWith ev c l)).
Proof.
  induction l as [| a l IH]; intros Hev c; simpl; [apply keepsCaller_refl |].
  pose proof (Hev a c (or_introl eq_refl)) as H1.
  destruct (ev c a) as [v c1]. simpl in H1.
  destruct v; [exact H1 |].
  assert (H2 : keepsCaller c1 (snd (evalArgsWith ev c1 l)))
    by (apply IH; intros; apply Hev; right; assumption).
  destruct (evalArgsWith ev c1 l) as [[vs |] c2];
    exact (keepsCaller_trans _ _ _ H1 H2).
Qed.

(** X8: Evaluating any expression, calls included, leaves the evaluation context's options and frame stack as they were and only appends diagnostics, provided subroutine bodies keep the caller frames the same way. *)
Theorem eval_keeps_caller subroutines evalBody
    (HB : forall s c r c', evalBody s c = (r, c') ->
          options c' = options c /\ tl (frames c') = tl (frames c) /\
          exists ds, diags c' = diags c ++ ds)
    (e : Expr) (ctx : EvalContext) :
  let c' := snd (eval subroutines evalBody ctx e) in
  options c' = options ctx /\ frames c' = frames ctx /\ exists ds, diags c' = diags ctx ++ ds.
Proof.
  change (keepsCaller ctx (snd (eval subroutines evalBody ctx e))).
  remember (height e) as n eqn:Hn. assert (Hle : height e <= n) by lia. clear Hn.
  revert e Hle ctx. induction n as [n IH] using lt_wf_ind. intros e Hle ctx.
  destruct e as [ch | ty v | nm ty r | callId si thisClass args ty range | ty mn tp mx sel];
    cbn [eval snd]; try apply keepsCaller_refl.
  - destruct (nth_error subroutines si) as [symbol |]; [| apply keepsCaller_refl].
    destruct (checkConstant ctx symbol range) as [ok ctx1] eqn:Hc.
    pose proof (extendsCtx_keepsCaller _ _ (checkConstant_extends _ _ _ _ _ Hc)) as K1.
    destruct ok; [| exact K1]. cbn [negb].
    destruct thisClass; [exact K1 |].
    assert (K2 : keepsCaller ctx1 (snd (evalArgsWith (eval subroutines evalBody) ctx1 args))).
    { apply evalArgsWith_keeps. intros a c Ha. simpl in Hle.
      apply (IH (height a)); [| lia]. pose proof (height_in_list a args Ha). lia. }
    destruct (evalArgsWith _ ctx1 args) as [[vs |] ctx2]; cbn [snd] in K2;
      [| exact (keepsCaller_trans _ _ _ K1 K2)].
    destruct (setupCallFrame ctx2 symbol vs range) as [pushed ctx3] eqn:Hs.
    destruct (setupCallFrame_shape _ _ _ _ _ _ Hs) as (Ho3 & [ds3 Hd3] & Hf3).
    destruct pushed; cbn [negb];
      [| apply (keepsCaller_trans _ _ _ K1), (keepsCaller_trans _ _ _ K2);
         repeat split; eauto].
    destruct (evalBody symbol ctx3) as [er ctx4] eqn:Hb.
    destruct (HB _ _ _ _ Hb) as (Ho4 & Hf4 & ds4 & Hd4).
    apply (keepsCaller_trans _ _ _ K1), (keepsCaller_trans _ _ _ K2).
    unfold finishCall, popFrame, setFrames.
    assert (Kfin : keepsCaller ctx2 (setFrames ctx4 (tl (frames ctx4)))).
    { repeat split; simpl; [congruence | congruence |].
      exists (ds3 ++ ds4). rewrite Hd4, Hd3, app_assoc. reflexivity. }
    destruct er; cbn; try exact Kfin;
      (repeat split; simpl; [congruence | congruence |]);
      exists (ds3 ++ ds4 ++ [mkDiag ConstEvalDisableTarget (disableRange ctx4) []
                                (map frameSub (frames ctx4))]);
      rewrite Hd4, Hd3, !app_assoc; reflexivity.
  - simpl in Hle. destruct sel; [apply (IH (height mn)) | apply (IH (height tp)) | apply (IH (height mx))]; lia.
Qed.

(** [st'] is [st] after a verification with outcome [b]: the [inRecursion]
    flags and the caller's context are as before, with more diagnostics,
    and none when the outcome is [true]. *)
Definition verifyKeeps (st st' : VState) (b : bool) : Prop :=
  inRecursion st' = inRecursion st /\ keepsCaller (vctx st) (vctx st') /\
  (b = true -> diags (vctx st') = diags (vctx st)).

Lemma verifyKeeps_refl st b : verifyKeeps st st b.
Proof. refine (conj eq_refl (conj (keepsCaller_refl _) (fun _ => eq_refl))). Qed.

Lemma verifyKeeps_trans a b c r :
  verifyKeeps a b true -> verifyKeeps b c r -> verifyKeeps a c r.
Proof.
  intros (H1 & K1 & D1) (H2 & K2 & D2).
  refine (conj _ (conj (keepsCaller_trans _ _ _ K1 K2) _)); [congruence |].
  intros Hr. rewrite D2, D1; auto.
Qed.

Lemma verifyAllWith_keeps (vc : VState -> Expr -> option (bool * VState)) l :
  (forall st a b st', In a l -> vc st a = Some (b, st') -> verifyKeeps st st' b) ->
  forall st b st', verifyAllWith vc st l = Some (b, st') -> verifyKeeps st st' b.
Proof.
  induction l as [| a l IH]; intros Hvc st b st' H; simpl in H.
  - injection H as <- <-. apply verifyKeeps_refl.
  - destruct (vc st a) as [[[|] st1] |] eqn:Ha; [| | discriminate].
    + apply (verifyKeeps_trans _ st1); [exact (Hvc _ _ _ _ (or_introl eq_refl) Ha) |].
      apply (IH (fun st a b st' H => Hvc st a b st' (or_intror H)) _ _ _ H).
    + injection H as <- <-. exact (Hvc _ _ _ _ (or_introl eq_refl) Ha).
Qed.

Lemma checkConstant_ok c s r c' : checkConstant c s r = (true, c') -> c' = c.
Proof.
  unfold checkConstant.
  destruct (scriptEval c); [intros H; injection H as <-; reflexivity |].
  destruct (subroutineKind s); [| discriminate].
  repeat match goal with |- context [if ?b then _ else _] => destruct b end;
    try discriminate; intros H; injection H as <-; reflexivity.
Qed.

(** X9: Constant verification of an expression restores the set of subroutines being verified, leaves options and frames unchanged, only appends diagnostics, and adds none when it succeeds. *)
Theorem verifyConstant_keeps subroutines fuel st e b st' :
  verifyConstant subroutines fuel st e = Some (b, st') ->
  inRecursion st' = inRecursion st /\
  options (vctx st') = options (vctx st) /\ frames (vctx st') = frames (vctx st) /\
  (exists ds, diags (vctx st') = diags (vctx st) ++ ds) /\
  (b = true -> diags (vctx st') = diags (vctx st)).
Proof.
  intros H. cut (verifyKeeps st st' b);
    [intros (H1 & (H2 & H3 & H4) & H5); auto |].
  revert st e b st' H. induction fuel as [| f IH]; intros st e b st' H; [discriminate |].
  destruct e as [ch | ty v | nm ty r | callId si thisClass args ty range | ty mn tp mx sel];
    cbn [verifyConstant] in H.
  - injection H as <- <-. apply verifyKeeps_refl.
  - injection H as <- <-. apply verifyKeeps_refl.
  - injection H as <- <-. refine (conj eq_refl (conj (addDiag_keepsCaller _ _ _ _) _)). discriminate.
  - assert (T : forall b0 st1,
              match thisClass with None => Some (true, st) | Some t => verifyConstant subroutines f st t end
              = Some (b0, st1) -> verifyKeeps st st1 b0).
    { intros b0 st1 Ht. destruct thisClass as [t |]; [exact (IH _ _ _ _ Ht) |].
      injection Ht as <- <-. apply verifyKeeps_refl. }
    destruct (match thisClass with None => _ | Some _ => _ end) as [[[|] st1] |] eqn:Ht;
      [| injection H as <- <-; exact (T _ _ eq_refl) | discriminate].
    pose proof (T _ _ eq_refl) as K1.
    destruct (verifyAllWith (verifyConstant subroutines f) st1 args) as [[[|] st2] |] eqn:Ha;
      [| | discriminate];
      pose proof (verifyAllWith_keeps _ args (fun st a b st' _ Hv => IH st a b st' Hv) _ _ _ Ha)
        as K2;
      [| injection H as <- <-; exact (verifyKeeps_trans _ _ _ _ K1 K2)].
    apply (verifyKeeps_trans _ _ _ _ K1), (verifyKeeps_trans _ _ _ _ K2).
    clear K1 K2 Ht T.
    destruct (nth_error subroutines si) as [symbol |]; [| injection H as <- <-; apply verifyKeeps_refl].
    destruct (checkConstant (vctx st2) symbol range) as [ok c3] eqn:Hc.
    pose proof (extendsCtx_keepsCaller _ _ (checkConstant_extends _ _ _ _ _ Hc)) as K3.
    destruct ok; cbn [negb] in H;
      [| injection H as <- <-; refine (conj eq_refl (conj K3 _)); discriminate].
    apply checkConstant_ok in Hc. subst c3. destruct st2 as [c2 rec2]. cbn [vctx inRecursion] in *.
    destruct (existsb (Nat.eqb callId) rec2) eqn:Hr;
      [injection H as <- <-; apply verifyKeeps_refl |].
    unfold pushFrame in H.
    destruct (Nat.leb (maxRecursionDepth (options c2)) (List.length (frames c2))); cbn [negb] in H.
    + injection H as <- <-. refine (conj _ (conj (addDiag_keepsCaller _ _ _ _) _)); cbn.
      * apply remove_cons_notin, Hr.
      * discriminate.
    + destruct (verifyAllWith _ _ (body symbol)) as [[b5 st5] |] eqn:Hb; [| discriminate].
      injection H as <- <-.
      destruct (verifyAllWith_keeps _ (body symbol) (fun st a b st' _ Hv => IH st a b st' Hv) _ _ _ Hb)
        as (R5 & (O5 & F5 & ds5 & D5) & E5).
      cbn [vctx inRecursion setFrames options frames diags] in *.
      refine (conj _ (conj (conj _ (conj _ _)) _)); cbn.
      * rewrite R5. apply remove_cons_notin, Hr.
      * exact O5.
      * rewrite F5. reflexivity.
      * exists ds5. exact D5.
      * intros ->. apply E5. reflexivity.
  - apply IH in H. exact H.
Qed.



Module ValueExpressionsFacts.
Import ValueExpressions.

Definition pathSym (s : Sym) : Prop :=
  vkind s = VK_Subroutine \/ vkind s = VK_StatementBlock.

Definition staticMethodOnPath (pre : list Sym) : bool :=
  existsb (fun s => VKind_eqb (vkind s) VK_Subroutine && symStatic s) pre.

(** X10: Walking out through subroutines and statement blocks, getParentClass returns the nearest enclosing class, and reports the lookup as static exactly when one of the subroutines passed is a static method. *)
Lemma getParentClassFrom_nearest pre cls rest inS :
  Forall pathSym pre -> vkind cls = VK_ClassType ->
  getParentClassFrom (pre ++ cls :: rest) inS = Some (Some cls, inS || staticMethodOnPath pre).
Proof.
  revert inS. induction pre as [| s pre IH]; intros inS Hp Hc; simpl.
  - rewrite Hc, orb_false_r. reflexivity.
  - inversion Hp as [| ? ? [Hs | Hs] Hp']; subst; rewrite Hs; simpl.
    + rewrite IH by assumption. unfold staticMethodOnPath. rewrite orb_assoc. reflexivity.
    + rewrite IH by assumption. reflexivity.
Qed.

Lemma getParentClassFrom_outside pre x rest inS :
  Forall pathSym pre ->
  vkind x <> VK_Subroutine -> vkind x <> VK_ClassType -> vkind x <> VK_StatementBlock ->
  getParentClassFrom (pre ++ x :: rest) inS = Some (None, false).
Proof.
  revert inS. induction pre as [| s pre IH]; intros inS Hp H1 H2 H3; simpl.
  - destruct (vkind x); try contradiction; reflexivity.
  - inversion Hp as [| ? ? [Hs | Hs] Hp']; subst; rewrite Hs; simpl; apply IH; assumption.
Qed.

(** X11: For a symbol that is not a class property the scope never matters: a non-value gives NotAValue, an automatic variable in a static initializer gives AutoFromStaticInit, and everything else binds with no diagnostic. *)
Theorem fromSymbol_not_class_property isValueKind isVariableKind isAssignmentCompatible
    chain staticInit ds symbol targetParent isHierarchical range :
  vkind symbol <> VK_ClassProperty ->
  fromSymbol isValueKind isVariableKind isAssignmentCompatible chain staticInit ds symbol
    targetParent isHierarchical range =
  Some (if negb (isValueKind (vkind symbol)) then
          (VBad, ds ++ [mkVDiag NotAValue range [DStr (symName symbol)]])
        else if isVariableKind (vkind symbol) && symAutomatic symbol && staticInit then
          (VBad, ds ++ [mkVDiag AutoFromStaticInit range [DStr (symName symbol)]])
        else (if isHierarchical then HierarchicalValue symbol range
              else NamedValueExpression symbol range, ds)).
Proof.
  intros Hk. unfold fromSymbol.
  destruct (isValueKind (vkind symbol)); [| reflexivity]. cbn [negb].
  replace (VKind_eqb (vkind symbol) VK_ClassProperty) with false
    by (destruct (vkind symbol); try reflexivity; congruence).
  destruct (isVariableKind (vkind symbol) && symAutomatic symbol), staticInit; reflexivity.
Qed.

(** X12: An automatic (non-static) class property used inside its own class binds with no diagnostic unless the use is inside a static method of the class or in a static initializer, in which case it is bad with NonStaticClassProperty. *)
Theorem fromSymbol_class_property isValueKind isVariableKind isAssignmentCompatible
    pre cls rest staticInit ds symbol targetParent isHierarchical range :
  isValueKind VK_ClassProperty = true -> isVariableKind VK_ClassProperty = true ->
  vkind symbol = VK_ClassProperty -> symAutomatic symbol = true ->
  Forall pathSym pre -> vkind cls = VK_ClassType -> symId targetParent = symId cls ->
  fromSymbol isValueKind isVariableKind isAssignmentCompatible (pre ++ cls :: rest) staticInit ds
    symbol targetParent isHierarchical range =
  Some (if staticMethodOnPath pre || staticInit then
          (VBad, ds ++ [mkVDiag NonStaticClassProperty range [DStr (symName symbol)]])
        else (if isHierarchical then HierarchicalValue symbol range
              else NamedValueExpression symbol range, ds)).
Proof.
  intros Hv Hvar Hk Ha Hpre Hc Hid. unfold fromSymbol, getParentClass.
  rewrite Hk, Hv, Hvar, Ha. cbn [negb andb VKind_eqb].
  rewrite getParentClassFrom_nearest by assumption. cbn [orb].
  unfold isAccessibleFrom. rewrite Hid, Nat.eqb_refl. cbn [negb].
  destruct (staticMethodOnPath pre || staticInit); reflexivity.
Qed.

(** X13: An automatic (non-static) class property used from a scope that is not inside any class is always bad with NonStaticClassProperty. *)
Theorem fromSymbol_class_property_outside isValueKind isVariableKind isAssignmentCompatible
    pre x rest staticInit ds symbol targetParent isHierarchical range :
  isValueKind VK_ClassProperty = true -> isVariableKind VK_ClassProperty = true ->
  vkind symbol = VK_ClassProperty -> symAutomatic symbol = true ->
  Forall pathSym pre ->
  vkind x <> VK_Subroutine -> vkind x <> VK_ClassType -> vkind x <> VK_StatementBlock ->
  fromSymbol isValueKind isVariableKind isAssignmentCompatible (pre ++ x :: rest) staticInit ds
    symbol targetParent isHierarchical range =
  Some (VBad, ds ++ [mkVDiag NonStaticClassProperty range [DStr (symName symbol)]]).
Proof.
  intros Hv Hvar Hk Ha Hpre H1 H2 H3. unfold fromSymbol, getParentClass.
  rewrite Hk, Hv, Hvar, Ha. cbn [negb andb VKind_eqb].
  rewrite getParentClassFrom_outside by assumption. reflexivity.
Qed.

(** X14: A static class property binds with no diagnostic from any scope, including static methods, static initializers and scopes outside any class. *)
Theorem fromSymbol_static_class_property isValueKind isVariableKind isAssignmentCompatible
    chain staticInit ds symbol targetParent isHierarchical range :
  isValueKind VK_ClassProperty = true ->
  vkind symbol = VK_ClassProperty -> symAutomatic symbol = false ->
  fromSymbol isValueKind isVariableKind isAssignmentCompatible chain staticInit ds
    symbol targetParent isHierarchical range =
  Some (if isHierarchical then HierarchicalValue symbol range
        else NamedValueExpression symbol range, ds).
Proof.
  intros Hv Hk Ha. unfold fromSymbol. rewrite Hk, Hv, Ha, andb_false_r. reflexivity.
Qed.

(** X15: A non-static method called without a class handle from inside its own class is rejected with NonStaticClassMethod exactly when the call is in a static method or static initializer; otherwise, without a with clause, the arguments are bound even if the parentheses are omitted. *)
Theorem fromLookup_method_in_own_class isAssignmentCompatible bindArgument
    pre cls rest staticInit ds si sub subParent callId invocation withClause range :
  Forall pathSym pre -> vkind cls = VK_ClassType -> vkind subParent = VK_ClassType ->
  symId subParent = symId cls -> flags_has (flags sub) MF_Static = false ->
  fromLookup isAssignmentCompatible bindArgument (pre ++ cls :: rest)
    staticInit ds si sub subParent callId None invocation withClause range =
  if staticMethodOnPath pre || staticInit then Some (Rejected (mkVDiag NonStaticClassMethod range []))
  else match withClause with
       | Some wr => Some (Rejected (mkVDiag WithClauseNotAllowed wr [DStr (sub_name sub)]))
       | None =>
           let '(e, ds') := fromArgs (bindArgument (pre ++ cls :: rest) staticInit) ds si sub
                              callId None (match invocation with Some a => a | None => None end)
                              range in
           Some (Bound e ds')
       end.
Proof.
  intros Hpre Hc Hp Hid Hs. unfold fromLookup, getParentClass.
  rewrite Hs, Hp. cbn [negb andb VKind_eqb].
  rewrite getParentClassFrom_nearest by assumption. cbn [orb].
  unfold isAccessibleFrom. rewrite Hid, Nat.eqb_refl. cbn [negb].
  destruct (staticMethodOnPath pre || staticInit); [reflexivity |].
  destruct withClause; [reflexivity |]. rewrite andb_false_r. reflexivity.
Qed.


(** X16: A subroutine that is not a class method, called with no parentheses and no with clause, is bound with no arguments if it returns void and is otherwise rejected with MissingInvocationParens. *)
Theorem fromLookup_missing_parens isAssignmentCompatible bindArgument
    chain staticInit ds si sub subParent callId thisClass range :
  vkind subParent <> VK_ClassType ->
  fromLookup isAssignmentCompatible bindArgument chain
    staticInit ds si sub subParent callId thisClass None None range =
  if isVoid (returnType sub) then
    let '(e, ds') := fromArgs (bindArgument chain staticInit) ds si sub callId thisClass None
                       range in
    Some (Bound e ds')
  else Some (Rejected (mkVDiag MissingInvocationParens range [DStr (sub_name sub)])).
Proof.
  intros Hp. unfold fromLookup.
  replace (VKind_eqb (vkind subParent) VK_ClassType) with false
    by (destruct (vkind subParent); try reflexivity; congruence).
  rewrite andb_false_r. cbn [andb negb].
  destruct (isVoid (returnType sub)); reflexivity.
Qed.

Lemma walkToSubroutine_spec scopes sub :
  walkToSubroutine scopes sub = if existsb (Nat.eqb sub) scopes then Some sub else None.
Proof.
  induction scopes as [| s scopes IH]; simpl; [reflexivity |].
  destruct (Nat.eqb s sub) eqn:E.
  - apply Nat.eqb_eq in E. subst. rewrite Nat.eqb_refl. reflexivity.
  - rewrite Nat.eqb_sym, E. exact IH.
Qed.

(** X17: Outside script mode, inside a constant function, a named value that is not a parameter or enum value and is not of class type is accepted exactly when the function is one of its enclosing scopes, and otherwise is rejected with ConstEvalFunctionIdentifiersMustBeLocal. *)
Theorem verifyNamedValue_locality ty sub symbol scopes declaredBefore range ds :
  isClass ty = false ->
  vkind symbol <> VK_Parameter -> vkind symbol <> VK_EnumValue ->
  verifyNamedValue false ty (Some sub) symbol scopes declaredBefore range ds =
  if existsb (Nat.eqb sub) scopes then (true, ds)
  else (false, ds ++ [mkVDiag ConstEvalFunctionIdentifiersMustBeLocal range []]).
Proof.
  intros Hc Hp He. unfold verifyNamedValue. rewrite Hc.
  replace (VKind_eqb (vkind symbol) VK_Parameter) with false
    by (destruct (vkind symbol); try reflexivity; congruence).
  replace (VKind_eqb (vkind symbol) VK_EnumValue) with false
    by (destruct (vkind symbol); try reflexivity; congruence).
  cbn [negb andb]. rewrite walkToSubroutine_spec.
  destruct (existsb (Nat.eqb sub) scopes); [rewrite Nat.eqb_refl |]; reflexivity.
Qed.

(** X18: Constant verification of a named value either succeeds with no new diagnostic or fails with exactly one. *)
Theorem verifyNamedValue_one_diag scriptEval ty topSub symbol scopes declaredBefore range ds :
  let '(ok, ds') := verifyNamedValue scriptEval ty topSub symbol scopes declaredBefore range ds in
  (ok = true /\ ds' = ds) \/ (ok = false /\ exists d, ds' = ds ++ [d]).
Proof.
  unfold verifyNamedValue.
  repeat (dmatch; cbn [negb andb] in *); eauto.
Qed.

(** X19: Evaluating a named value either succeeds with no new diagnostic, returning the parameter or enum value or the variable's local value from the top frame, or returns the bad value with exactly one new diagnostic. *)
Theorem evalNamedValue_result scriptEval ty topSub symbol scopes declaredBefore range value
    local ds :
  let '(v, ds') := evalNamedValue scriptEval ty topSub symbol scopes declaredBefore range
                     value local ds in
  (ds' = ds /\
   verifyNamedValue scriptEval ty topSub symbol scopes declaredBefore range ds = (true, ds) /\
   (if VKind_eqb (vkind symbol) VK_Parameter || VKind_eqb (vkind symbol) VK_EnumValue
    then v = value else local = Some v)) \/
  (v = CVBad /\ exists d, ds' = ds ++ [d]).
Proof.
  unfold evalNamedValue.
  pose proof (verifyNamedValue_one_diag scriptEval ty topSub symbol scopes declaredBefore range ds)
    as Hv.
  destruct (verifyNamedValue scriptEval ty topSub symbol scopes declaredBefore range ds)
    as [ok ds1] eqn:E.
  destruct Hv as [[-> ->] | [-> [d ->]]]; cbn [negb].
  - destruct (VKind_eqb (vkind symbol) VK_Parameter || VKind_eqb (vkind symbol) VK_EnumValue).
    + left. auto.
    + destruct local as [v |]; [left; auto | right; eauto].
  - right. eauto.
Qed.

(** ** Sample scopes and symbols *)

(** [Symbol::isValue] and [VariableSymbol::isKind] on the kinds of the model. *)
Definition sampleIsValue (k : VKind) : bool :=
  match k with
  | VK_Variable | VK_FormalArgument | VK_ClassProperty | VK_Parameter | VK_EnumValue | VK_Net =>
      true
  | _ => false
  end.

Definition sampleIsVariable (k : VKind) : bool :=
  match k with VK_Variable | VK_FormalArgument | VK_ClassProperty => true | _ => false end.

Definition noCompat (_ _ : Sym) : bool := false.

(** Argument binding that does not depend on the calling scope. *)
Definition bindSampleIn (_ : list Sym) (_ : bool) := bindSample.

Definition classC : Sym := mkSym 1 VK_ClassType "C"%string false false.
Definition staticMethodM : Sym := mkSym 2 VK_Subroutine "m"%string true false.
Definition blockB : Sym := mkSym 3 VK_StatementBlock "b"%string false false.
Definition propertyP : Sym := mkSym 4 VK_ClassProperty "p"%string false true.
Definition packageScope : Sym := mkSym 5 VK_Other "pkg"%string false false.
Definition methodF : Sym := mkSym 6 VK_Subroutine "f"%string false false.
Definition localV : Sym := mkSym 7 VK_Variable "v"%string false true.

(** [function int f();] declared in class [C]. *)
Definition classMethod : SubroutineSymbol :=
  mkSubroutine "f"%string SK_Function MF_None intType [] ClassType [].

Lemma getParentClassFrom_nearest_witness :
  getParentClassFrom ([blockB; staticMethodM] ++ classC :: []) false = Some (Some classC, true).
Proof.
  apply (getParentClassFrom_nearest [blockB; staticMethodM] classC [] false).
  - constructor; [right; reflexivity | constructor; [left; reflexivity | constructor]].
  - reflexivity.
Defined.

Lemma fromSymbol_not_class_property_witness :
  fromSymbol sampleIsValue sampleIsVariable noCompat [methodF] true [] localV classC false 0 =
  Some (VBad, [mkVDiag AutoFromStaticInit 0 [DStr "v"%string]]).
Proof.
  rewrite (fromSymbol_not_class_property sampleIsValue sampleIsVariable noCompat [methodF] true []
             localV classC false 0); [reflexivity | discriminate].
Defined.

Lemma fromSymbol_class_property_witness :
  fromSymbol sampleIsValue sampleIsVariable noCompat ([staticMethodM] ++ classC :: []) false []
    propertyP classC false 0 =
  Some (VBad, [mkVDiag NonStaticClassProperty 0 [DStr "p"%string]]).
Proof.
  rewrite (fromSymbol_class_property sampleIsValue sampleIsVariable noCompat [staticMethodM]
             classC [] false [] propertyP classC false 0);
    [reflexivity | reflexivity | reflexivity | reflexivity | reflexivity
    | constructor; [left; reflexivity | constructor] | reflexivity | reflexivity].
Defined.

Lemma fromSymbol_class_property_outside_witness :
  fromSymbol sampleIsValue sampleIsVariable noCompat ([] ++ packageScope :: []) false []
    propertyP classC true 0 =
  Some (VBad, [mkVDiag NonStaticClassProperty 0 [DStr "p"%string]]).
Proof.
  rewrite (fromSymbol_class_property_outside sampleIsValue sampleIsVariable noCompat []
             packageScope [] false [] propertyP classC true 0);
    [reflexivity | reflexivity | reflexivity | reflexivity | reflexivity | constructor
    | discriminate | discriminate | discriminate].
Defined.

(** A static property of class [C]. *)
Definition staticPropertyS : Sym := mkSym 8 VK_ClassProperty "s"%string true false.

Lemma fromSymbol_static_class_property_witness :
  fromSymbol sampleIsValue sampleIsVariable noCompat [staticMethodM; classC] true []
    staticPropertyS classC false 0 =
  Some (NamedValueExpression staticPropertyS 0, []).
Proof.
  rewrite (fromSymbol_static_class_property sampleIsValue sampleIsVariable noCompat
             [staticMethodM; classC] true [] staticPropertyS classC false 0);
    reflexivity.
Defined.

Lemma fromLookup_method_in_own_class_witness :
  fromLookup noCompat bindSampleIn ([blockB; methodF] ++ classC :: []) false [] 0 classMethod
    classC 9 None None None 0 =
  Some (Bound (CallExpression 9 0 None [] intType 0) []).
Proof.
  rewrite (fromLookup_method_in_own_class noCompat bindSampleIn [blockB; methodF] classC [] false []
             0 classMethod classC 9 None None 0).
  - vm_compute. reflexivity.
  - constructor; [right; reflexivity | constructor; [left; reflexivity | constructor]].
  - reflexivity.
  - reflexivity.
  - reflexivity.
  - reflexivity.
Defined.

Lemma fromLookup_missing_parens_witness :
  fromLookup noCompat bindSampleIn [packageScope] false [] 0 oneArgFunction packageScope 9 None
    None None 0 =
  Some (Rejected (mkVDiag MissingInvocationParens 0 [DStr "g"%string])).
Proof.
  rewrite (fromLookup_missing_parens noCompat bindSampleIn [packageScope] false [] 0 oneArgFunction
             packageScope 9 None 0); [reflexivity | discriminate].
Defined.

Lemma verifyNamedValue_locality_witness :
  verifyNamedValue false intType (Some 6) localV [3; 5] None 0 [] =
  (false, [mkVDiag ConstEvalFunctionIdentifiersMustBeLocal 0 []]).
Proof.
  rewrite (verifyNamedValue_locality intType 6 localV [3; 5] None 0 []);
    [reflexivity | reflexivity | discriminate | discriminate].
Defined.

End ValueExpressionsFacts.

Module MemberBodiesFacts.
Import MemberSymbols MemberBodies.

(** X20: An explicit import looks up its package and member on first use only; every later call of importedSymbol or package, against any design root, returns the same results and leaves the import unchanged. *)
Theorem importedSymbol_resolves_once root root' ds ds' packageName importName :
  let '(sym, self1, ds1) := importedSymbol root ds (newExplicitImport packageName importName) in
  sym = match findPackage root packageName with
        | Some p => lookupDirect p importName
        | None => None
        end /\
  ds1 = ds /\
  importedSymbol root' ds' self1 = (sym, self1, ds') /\
  package root' ds' self1 = (findPackage root packageName, self1, ds').
Proof.
  unfold importedSymbol, newExplicitImport, package. cbn.
  destruct (findPackage root packageName); cbn; auto.
Qed.

(** X21: A wildcard import looks up its package once and caches the result, a missing package included, so later calls against any design root return the same result. *)
Theorem getPackage_caches root root' name :
  let '(p, self1) := getPackage root (mkWildcard name None) in
  p = findPackage root name /\ getPackage root' self1 = (p, self1).
Proof.
  unfold getPackage. cbn. auto.
Qed.

Lemma portLoop_ports ports lastType lastDirection :
  match portLoop ports lastType lastDirection with
  | None => exists p, In p ports /\ portDirection p = Identifier
  | Some args =>
      map argName args = map portName ports /\
      map argInitializer args = map portInitializer ports /\
      Forall (fun p => portDirection p <> Identifier) ports
  end.
Proof.
  revert lastType lastDirection.
  induction ports as [| p ports IH]; intros lastType lastDirection; cbn [portLoop].
  - cbn. auto.
  - unfold portDirectionOf.
    destruct (portDirection p) eqn:Ed;
      [ .. | exists p; split; [left; reflexivity | exact Ed]].
    all: repeat (dmatch; cbn [map]).
    all: match goal with H : portLoop _ ?a ?b = _ |- _ =>
           pose proof (IH a b) as X; rewrite H in X end.
    all: first
        [ destruct X as (X1 & X2 & X3); cbn [map]; rewrite X1, X2;
          split; [reflexivity | split; [reflexivity | constructor; [congruence | exact X3]]]
        | destruct X as (q & Hq & Hd); exists q; split; [right; exact Hq | exact Hd] ].
Qed.

(** X22: Building formal arguments from a port list fails exactly when some port has an identifier as its direction token; otherwise the formals have the ports' names and initializers, in order. *)
Theorem formalsFromSyntax_ports ports :
  match formalsFromSyntax (Some ports) with
  | None => exists p, In p ports /\ portDirection p = Identifier
  | Some args =>
      map argName args = map portName ports /\
      map argInitializer args = map portInitializer ports /\
      Forall (fun p => portDirection p <> Identifier) ports
  end.
Proof.
  exact (portLoop_ports ports None DirIn).
Qed.

(** X23: A for loop whose first initializer declares a variable with an initializer yields one implicit block holding only that variable, whatever the other initializers and the body; if that declaration has no initializer, createImplicitBlock fails on the null initializer, and a loop whose first initializer is an expression while a later one declares a variable fails the cast in createImplicitBlock. *)
Theorem findChildSymbols_for_loop type d initializers statement e rest body :
  existsb isForVariableDeclaration rest = true ->
  findChildSymbolsStmt (ForLoopStatement (ForVariableDeclaration type d :: initializers) statement) =
  match declInitializer d with
  | Some init => Some [SequentialBlockSym [VariableSym (declName d) type (Some init)]]
  | None => None
  end /\
  findChildSymbolsStmt (ForLoopStatement (ForInitializerExpression e :: rest) body) = None.
Proof.
  intros H. split.
  - cbn. destruct (declInitializer d); reflexivity.
  - cbn [findChildSymbolsStmt existsb isForVariableDeclaration orb]. rewrite H. reflexivity.
Qed.

Definition isVariableSym (m : MemberSymbol) : bool :=
  match m with VariableSym _ _ _ => true | _ => false end.

Definition itemVariables (item : SyntaxNode) : list MemberSymbol :=
  match item with
  | DataDeclaration type declarators => variablesFromSyntax type declarators
  | _ => []
  end.

Definition isBlockSym (m : MemberSymbol) : Prop :=
  exists members, m = SequentialBlockSym members.

Lemma findChildSymbolsStmt_blocks :
  forall s r, findChildSymbolsStmt s = Some r -> Forall isBlockSym r.
Proof.
  fix IH 1. intros [st el | inits st | |] r H; cbn [findChildSymbolsStmt] in H.
  - destruct (findChildSymbolsStmt st) as [r1 |] eqn:E1; [| discriminate].
    destruct el as [cl |].
    + destruct (findChildSymbolsStmt cl) as [r2 |] eqn:E2; [| discriminate].
      injection H as <-. apply Forall_app. split; [exact (IH _ _ E1) | exact (IH _ _ E2)].
    + injection H as <-. exact (IH _ _ E1).
  - destruct (existsb isForVariableDeclaration inits).
    + unfold createImplicitBlock in H.
      destruct inits as [| [ty d | x] inits]; try discriminate.
      destruct (declInitializer d); [| discriminate].
      injection H as <-. repeat constructor. eexists; reflexivity.
    + exact (IH _ _ H).
  - injection H as <-. repeat constructor. eexists; reflexivity.
  - injection H as <-. constructor.
Qed.

(** X24: The variables found directly among a body's child symbols are exactly those of its data declarations, in order; every other child symbol is a sequential block. *)
Theorem findChildSymbols_variables items ms :
  findChildSymbols items = Some ms ->
  filter isVariableSym ms = List.concat (map itemVariables items) /\
  Forall (fun m => isVariableSym m = false -> isBlockSym m) ms.
Proof.
  revert ms. induction items as [| item items IH]; intros ms H; cbn [findChildSymbols] in H.
  - injection H as <-. split; [reflexivity | constructor].
  - destruct (findChildSymbols items) as [r2 |] eqn:E2;
      [| destruct item; try destruct (findChildSymbolsStmt _); discriminate].
    destruct (IH _ eq_refl) as [Hf Hb].
    destruct item as [ty decls | s |].
    + injection H as <-. rewrite filter_app, Hf. cbn [map concat]. split.
      * cbn [itemVariables]. f_equal. unfold variablesFromSyntax.
        induction decls as [| x decls IHd]; cbn; [reflexivity | f_equal; exact IHd].
      * apply Forall_app. split; [| exact Hb].
        unfold variablesFromSyntax. apply Forall_forall. intros m Hm.
        apply in_map_iff in Hm. destruct Hm as (x & <- & _). discriminate.
    + destruct (findChildSymbolsStmt s) as [r1 |] eqn:E1; [| discriminate].
      injection H as <-. pose proof (findChildSymbolsStmt_blocks _ _ E1) as Hbl.
      rewrite filter_app, Hf. cbn [map concat itemVariables app]. split.
      * replace (filter isVariableSym r1) with (@nil MemberSymbol); [reflexivity |].
        clear E1. induction Hbl as [| m r1 [b ->] _ IHb]; cbn; [reflexivity | exact IHb].
      * apply Forall_app. split; [| exact Hb].
        eapply Forall_impl; [| exact Hbl]. auto.
    + injection H as <-. cbn. split; [exact Hf | exact Hb].
Qed.

(** X25: The members of a subroutine built from syntax are its formal arguments, named after the ports in order, followed by the child symbols of its body. *)
Theorem subroutineMembers_layout portList items arguments members :
  subroutineMembers portList items = Some (arguments, members) ->
  exists children,
    findChildSymbols items = Some children /\
    members = map FormalArgumentSym arguments ++ children /\
    map argName arguments = match portList with Some ports => map portName ports | None => [] end.
Proof.
  unfold subroutineMembers. intros H.
  destruct (formalsFromSyntax portList) as [args |] eqn:Ef; [| discriminate].
  destruct (findChildSymbols items) as [children |]; [| discriminate].
  injection H as <- <-. exists children. split; [reflexivity | split; [reflexivity |]].
  destruct portList as [ports |].
  - pose proof (portLoop_ports ports None DirIn) as Hp. cbn in Ef. rewrite Ef in Hp. apply Hp.
  - cbn in Ef. injection Ef as <-. reflexivity.
Qed.

Lemma findChildSymbols_for_loop_witness :
  findChildSymbolsStmt
    (ForLoopStatement [ForVariableDeclaration 0 (mkDeclarator "i"%string (Some 0));
                       ForVariableDeclaration 0 (mkDeclarator "j"%string (Some 1))]
       OtherStatement) =
  Some [SequentialBlockSym [VariableSym "i"%string 0 (Some 0)]] /\
  findChildSymbolsStmt
    (ForLoopStatement [ForInitializerExpression 3;
                       ForVariableDeclaration 0 (mkDeclarator "j"%string (Some 1))]
       OtherStatement) = None.
Proof.
  apply (findChildSymbols_for_loop 0 (mkDeclarator "i"%string (Some 0))
           [ForVariableDeclaration 0 (mkDeclarator "j"%string (Some 1))] OtherStatement 3
           [ForVariableDeclaration 0 (mkDeclarator "j"%string (Some 1))] OtherStatement).
  reflexivity.
Defined.

(** [int x; for (int i = 0; ...) ...; begin ... end] *)
Definition sampleItems : list SyntaxNode :=
  [DataDeclaration 0 [mkDeclarator "x"%string None];
   StatementItem (ForLoopStatement [ForVariableDeclaration 1 (mkDeclarator "i"%string (Some 0))]
                    OtherStatement);
   StatementItem SequentialBlockStatement].

Lemma findChildSymbols_variables_witness :
  exists ms, findChildSymbols sampleItems = Some ms /\
    filter isVariableSym ms = List.concat (map itemVariables sampleItems) /\
    Forall (fun m => isVariableSym m = false -> isBlockSym m) ms.
Proof.
  eexists. split; [vm_compute; reflexivity |].
  apply (findChildSymbols_variables sampleItems). vm_compute. reflexivity.
Defined.

Definition samplePort : FunctionPortSyntax :=
  mkPort InputKeyword false None "a"%string None.

Lemma subroutineMembers_layout_witness :
  exists arguments members,
    subroutineMembers (Some [samplePort]) sampleItems = Some (arguments, members) /\
    exists children,
      findChildSymbols sampleItems = Some children /\
      members = map FormalArgumentSym arguments ++ children /\
      map argName arguments = map portName [samplePort].
Proof.
  do 2 eexists. split; [vm_compute; reflexivity |].
  apply (subroutineMembers_layout (Some [samplePort]) sampleItems). vm_compute. reflexivity.
Defined.

End MemberBodiesFacts.

(** ** Witnesses *)


Lemma fromArgs_ordered_exact_witness :
  fromArgs bindSample [] 0 twoArgFunction 9 None (Some (orderedArgsOf [(1, 1); (2, 2)])) 0 =
  (CallExpression 9 0 None [IntegerLiteral intType 1; IntegerLiteral intType 2] intType 0, []).
Proof.
  rewrite (fromArgs_ordered_exact bindSample [] 0 twoArgFunction 9 None [(1, 1); (2, 2)] 0);
    vm_compute; reflexivity.
Defined.

Lemma fromArgs_too_many_witness :
  fromArgs bindSample [] 0 twoArgFunction 9 None
    (Some (orderedArgsOf [(1, 1); (2, 2); (3, 3)])) 0 =
  (badExpr (Some (CallExpression 9 0 None [IntegerLiteral intType 1; IntegerLiteral intType 2]
                    intType 0)),
   [bindDiag TooManyArguments 0 [DNat 2; DNat 3]]).
Proof.
  rewrite (fromArgs_too_many bindSample [] 0 twoArgFunction 9 None [(1, 1); (2, 2); (3, 3)] 0);
    [vm_compute; reflexivity | cbn; lia].
Defined.

(** [function int h(int d = 5);] *)
Definition formalD : FormalArgumentSymbol :=
  mkFormal "d"%string intType ArgIn false (Some (IntegerLiteral intType 5)).

Definition defaultArgFunction : SubroutineSymbol :=
  mkSubroutine "h"%string SK_Function MF_None intType [formalD] CompilationUnit [].

Lemma fromArgs_defaults_witness :
  fromArgs bindSample [] 0 defaultArgFunction 9 None (Some []) 0 =
  (CallExpression 9 0 None [IntegerLiteral intType 5] intType 0, []).
Proof.
  rewrite (fromArgs_defaults bindSample [] 0 defaultArgFunction 9 None (Some []) 0
             [IntegerLiteral intType 5]);
    [reflexivity | right; reflexivity | reflexivity].
Defined.

Lemma fromArgs_unknown_named_witness :
  let r := fromArgs bindSample [] 0 oneArgFunction 9 None
             (Some ([OrderedArgument 1 1] ++ [NamedArgument 2 "z"%string (Some 2)])) 0 in
  bad (fst r) = true /\
  exists loc', In (bindDiag ArgDoesNotExist loc' [DStr "z"%string; DStr (sub_name oneArgFunction)])
                  (snd r).
Proof.
  apply (fromArgs_unknown_named bindSample [] 0 oneArgFunction 9 None [OrderedArgument 1 1]
           [NamedArgument 2 "z"%string (Some 2)] 0 2 "z"%string (Some 2)).
  - repeat constructor.
  - repeat constructor.
  - left; reflexivity.
  - discriminate.
  - cbn. intros [H | []]. discriminate.
Defined.

Lemma fromArgs_duplicate_named_witness :
  let r1 := fromArgs bindSample [] 0 twoArgFunction 9 None
              (Some ([] ++ [NamedArgument 1 "a"%string (Some 1)])) 0 in
  let r2 := fromArgs bindSample [] 0 twoArgFunction 9 None
              (Some ([] ++ [NamedArgument 1 "a"%string (Some 1)] ++
                     [NamedArgument 3 "a"%string (Some 3)])) 0 in
  fst r2 = fst r1 /\
  exists pre post, snd r1 = pre ++ post /\
    snd r2 = pre ++ bindDiag DuplicateArgAssignment 3 [DStr "a"%string] :: post.
Proof.
  apply (fromArgs_duplicate_named bindSample [] 0 twoArgFunction 9 None []
           [NamedArgument 1 "a"%string (Some 1)] 0 1 "a"%string (Some 1) 3 (Some 3)).
  - constructor.
  - repeat constructor.
  - left; reflexivity.
  - discriminate.
Defined.

Lemma fromArgs_positional_and_named_witness :
  let r := fromArgs bindSample [] 0 twoArgFunction 9 None
             (Some ([OrderedArgument 1 1] ++ [NamedArgument 2 "a"%string (Some 2)])) 0 in
  bad (fst r) = true /\
  exists loc', In (bindDiag DuplicateArgAssignment loc' [DStr "a"%string]) (snd r).
Proof.
  apply (fromArgs_positional_and_named bindSample [] 0 twoArgFunction 9 None
           [OrderedArgument 1 1] [NamedArgument 2 "a"%string (Some 2)] 0 formalA [formalB]
           2 "a"%string (Some 2)).
  - reflexivity.
  - reflexivity.
  - discriminate.
  - discriminate.
  - repeat constructor.
  - repeat constructor.
  - left; reflexivity.
Defined.

(** A body that finishes normally without touching the context. *)
Definition idleBody (_ : SubroutineSymbol) (c : EvalContext) : EvalResult * EvalContext :=
  (Success, c).

Lemma eval_keeps_caller_witness :
  let c' := snd (eval [oneArgF] idleBody ctxNoScript
                   (CallExpression 1 0 None [IntegerLiteral intType 3] intType 7)) in
  options c' = options ctxNoScript /\ frames c' = frames ctxNoScript /\
  exists ds, diags c' = diags ctxNoScript ++ ds.
Proof.
  apply (eval_keeps_caller [oneArgF] idleBody).
  intros s c r c' H. cbn in H. injection H as <- <-.
  split; [reflexivity | split; [reflexivity | exists []; symmetry; apply app_nil_r]].
Defined.

Lemma verifyConstant_keeps_witness :
  exists b st', verifyConstant [recursiveF] 8 (mkV ctxNoScript []) recursiveCall = Some (b, st') /\
    inRecursion st' = inRecursion (mkV ctxNoScript []) /\
    options (vctx st') = options ctxNoScript /\ frames (vctx st') = frames ctxNoScript /\
    (exists ds, diags (vctx st') = diags ctxNoScript ++ ds) /\
    (b = true -> diags (vctx st') = diags ctxNoScript).
Proof.
  do 2 eexists. split; [vm_compute; reflexivity |].
  apply (verifyConstant_keeps [recursiveF] 8 (mkV ctxNoScript []) recursiveCall).
  vm_compute. reflexivity.
Defined.
